(** * EduASSIST: the question extractor of [backend/core/services/pdf_service.py]

    A shallow embedding of [QuestionExtractor] and of the part of Python's
    [re] module its patterns use, followed by the properties of the
    extraction pipeline.

    Modelling conventions.
    - A Python [str] is a list of characters; a character is an [ascii], so
      the model covers the texts whose code points are below 256.  The
      classes [\s], [\w] and [\d] are CPython's Unicode classes restricted
      to that range.
    - A Python [int] is a [Z]; a Python [float] is a binary64 [float].
    - A Python exception is an [exn] carried by the [result] monad.
    - [seen_questions], a set used only through [in] and [add], is a list
      of ids used only through membership. *)

From Stdlib Require Import Ascii String ZArith Lia Bool Arith PrimFloat List.
From Stdlib Require Import Sorted Permutation.
Import ListNotations.

Set Warnings "-inexact-float".
Local Open Scope list_scope.

(* ================================================================== *)
(** * Python strings *)

Module PyStr.

Definition pystr := list ascii.

(** A string literal of the source. *)
Definition str (s : string) : pystr := list_ascii_of_string s.
Arguments str s%_string.

Definition newline : ascii := "010"%char.
Definition space : ascii := " "%char.

Definition code (c : ascii) : nat := nat_of_ascii c.

Definition between (lo hi : nat) (c : ascii) : bool :=
  (lo <=? code c) && (code c <=? hi).

(** [str.isspace] on one character, which is also the class [\s]:
    TAB..CR, FS..US, space, NEL and NBSP. *)
Definition is_space (c : ascii) : bool :=
  between 9 13 c || between 28 32 c || (code c =? 133) || (code c =? 160).

(** The class [\d]: the decimal digits. *)
Definition is_digit (c : ascii) : bool := between 48 57 c.

(** Alphabetic characters below 256. *)
Definition is_alpha (c : ascii) : bool :=
  between 65 90 c || between 97 122 c
  || (code c =? 170) || (code c =? 181) || (code c =? 186)
  || between 192 214 c || between 216 246 c || between 248 255 c.

(** Numeric characters below 256 that are not decimal digits:
    superscripts and vulgar fractions. *)
Definition is_numeric_other (c : ascii) : bool :=
  (code c =? 178) || (code c =? 179) || (code c =? 185) || between 188 190 c.

(** The class [\w]: alphanumeric characters and the underscore. *)
Definition is_word (c : ascii) : bool :=
  is_alpha c || is_digit c || is_numeric_other c || (code c =? 95).

(** [str.lower] on one character. *)
Definition lower (c : ascii) : ascii :=
  if between 65 90 c || (between 192 222 c && negb (code c =? 215))
  then ascii_of_nat (code c + 32) else c.

Fixpoint dropWhile (p : ascii -> bool) (s : pystr) : pystr :=
  match s with
  | [] => []
  | c :: t => if p c then dropWhile p t else s
  end.

Definition lstrip (s : pystr) : pystr := dropWhile is_space s.
Definition rstrip (s : pystr) : pystr := rev (dropWhile is_space (rev s)).

(** [s.strip()] *)
Definition strip (s : pystr) : pystr := rstrip (lstrip s).

(** [c in s] for a one-character [c]. *)
Definition contains (c : ascii) (s : pystr) : bool := existsb (Ascii.eqb c) s.

(** [s[-1]], for a non-empty [s]. *)
Definition last_char (s : pystr) : option ascii :=
  match rev s with [] => None | c :: _ => Some c end.

End PyStr.
Import PyStr.

(* ================================================================== *)
(** * Exceptions *)

Inductive exn : Type :=
| IndexError      (* match.group of a group the pattern does not define *)
| ValueError      (* int() of a string that is not a numeral *)
| TypeError       (* int(None) *)
| AttributeError. (* None.strip() *)

Inductive result (A : Type) : Type :=
| Ok (a : A)
| Raise (e : exn).
Arguments Ok {A} a.
Arguments Raise {A} e.

Definition bind {A B : Type} (x : result A) (k : A -> result B) : result B :=
  match x with
  | Ok a => k a
  | Raise e => Raise e
  end.

Notation "x <- e ;; k" := (bind e (fun x => k))
  (at level 61, e at next level, right associativity).

(** A [for] loop whose body may raise. *)
Fixpoint for_each {A S : Type} (body : S -> A -> result S) (l : list A) (s : S)
  : result S :=
  match l with
  | [] => Ok s
  | a :: l' => s' <- body s a ;; for_each body l' s'
  end.

(* ================================================================== *)
(** * The fragment of [re] used by the extractor *)

Module Re.

(** Members of a bracketed set, and the escapes [\s], [\w], [\d]. *)
Inductive item : Type :=
| CChar (c : ascii)
| CRange (lo hi : ascii)
| CSpace
| CWord
| CDigit.

Inductive regex : Type :=
| Eps
| Lit (c : ascii)
| Dot
| Set_ (negated : bool) (items : list item)
| Bol                                   (* ^ *)
| Eol                                   (* $ *)
| Seq (r1 r2 : regex)
| Alt (r1 r2 : regex)
| Star (greedy : bool) (r : regex)      (* r* and r*? *)
| Group (name : string) (r : regex)     (* (?P<name>r) *)
| Look (r : regex).                     (* (?=r) *)

(** Derived forms. *)
Definition Plus (greedy : bool) (r : regex) : regex := Seq r (Star greedy r).
Definition Opt (r : regex) : regex := Alt r Eps.
Definition Esc (i : item) : regex := Set_ false [i].
Definition Cat (rs : list regex) : regex := fold_right Seq Eps rs.
Definition Str (s : string) : regex := Cat (map Lit (str s)).
Arguments Str s%_string.

Record flags : Type := { IGNORECASE : bool; MULTILINE : bool; DOTALL : bool }.

Definition no_flags : flags :=
  {| IGNORECASE := false; MULTILINE := false; DOTALL := false |}.

(** The names of the groups a pattern defines, in order. *)
Fixpoint group_names (r : regex) : list string :=
  match r with
  | Seq r1 r2 | Alt r1 r2 => group_names r1 ++ group_names r2
  | Star _ r1 | Look r1 => group_names r1
  | Group name r1 => name :: group_names r1
  | _ => []
  end.

(** ** Matching at one position *)

(** The matcher's state: the character before the current position (if
    any), the text from the current position on, and the groups captured
    so far (latest first). *)
Record mstate : Type :=
  { prev : option ascii; rest : pystr; caps : list (string * pystr) }.

Definition in_item (i : item) (c : ascii) : bool :=
  match i with
  | CChar d => Ascii.eqb c d
  | CRange lo hi => between (code lo) (code hi) c
  | CSpace => is_space c
  | CWord => is_word c
  | CDigit => is_digit c
  end.

Definition in_set (negated : bool) (items : list item) (c : ascii) : bool :=
  xorb negated (existsb (fun i => in_item i c) items).

Definition lit_ok (f : flags) (d c : ascii) : bool :=
  if IGNORECASE f then Ascii.eqb (lower c) (lower d) else Ascii.eqb c d.

Definition dot_ok (f : flags) (c : ascii) : bool :=
  DOTALL f || negb (Ascii.eqb c newline).

Definition at_bol (f : flags) (st : mstate) : bool :=
  match prev st with
  | None => true
  | Some c => MULTILINE f && Ascii.eqb c newline
  end.

Definition at_eol (f : flags) (st : mstate) : bool :=
  match rest st with
  | [] => true
  | c :: t =>
      Ascii.eqb c newline && (MULTILINE f || match t with [] => true | _ => false end)
  end.

(** Consume one character satisfying [p]. *)
Definition eat (p : ascii -> bool) (st : mstate) (k : mstate -> option mstate)
  : option mstate :=
  match rest st with
  | c :: t =>
      if p c then k {| prev := Some c; rest := t; caps := caps st |} else None
  | [] => None
  end.

(** The text between two states of one match. *)
Definition consumed (st st1 : mstate) : pystr :=
  firstn (length (rest st) - length (rest st1)) (rest st).

Definition set_cap (name : string) (s : pystr) (st : mstate) : mstate :=
  {| prev := prev st; rest := rest st; caps := (name, s) :: caps st |}.

Definition with_caps (st : mstate) (cs : list (string * pystr)) : mstate :=
  {| prev := prev st; rest := rest st; caps := cs |}.

Notation "a <|> b" := (match a with Some x => Some x | None => b end)
  (at level 50, left associativity).

(** The iterations of a starred expression whose one iteration is [body],
    followed by the rest of the pattern [k]: at most [n] iterations, each
    having to consume something.  A greedy star tries one more iteration
    first, a lazy one tries [k] first. *)
Fixpoint star_loop (body : mstate -> (mstate -> option mstate) -> option mstate)
    (greedy : bool) (k : mstate -> option mstate) (n : nat) (st : mstate)
  : option mstate :=
  match n with
  | O => k st
  | S n' =>
      let again st1 :=
        if length (rest st1) <? length (rest st)
        then star_loop body greedy k n' st1 else None in
      if greedy then body st again <|> k st else k st <|> body st again
  end.

(** Backtracking matcher in continuation-passing style: alternatives are
    tried in priority order, and [k] is the rest of the pattern.  A starred
    expression gets one iteration per remaining character. *)
Fixpoint run (f : flags) (r : regex) (st : mstate)
    (k : mstate -> option mstate) {struct r} : option mstate :=
  match r with
  | Eps => k st
  | Lit d => eat (lit_ok f d) st k
  | Dot => eat (dot_ok f) st k
  | Set_ negated items => eat (in_set negated items) st k
  | Bol => if at_bol f st then k st else None
  | Eol => if at_eol f st then k st else None
  | Seq r1 r2 => run f r1 st (fun st1 => run f r2 st1 k)
  | Alt r1 r2 => run f r1 st k <|> run f r2 st k
  | Star greedy r1 => star_loop (run f r1) greedy k (length (rest st)) st
  | Group name r1 =>
      run f r1 st (fun st1 => k (set_cap name (consumed st st1) st1))
  | Look r1 =>
      match run f r1 st Some with
      | Some st1 => k (with_caps st (caps st1))
      | None => None
      end
  end.

(** A match of [r] starting exactly here: the number of characters it
    spans and its captures. *)
Definition match_at (f : flags) (r : regex) (before : option ascii) (s : pystr)
  : option (nat * list (string * pystr)) :=
  match run f r {| prev := before; rest := s; caps := [] |} Some with
  | Some st1 => Some (length s - length (rest st1), caps st1)
  | None => None
  end.

(** ** Match objects *)

Record Match : Type :=
  { defined : list string;              (* the groups of the pattern *)
    captured : list (string * pystr) }. (* those that took part *)

Fixpoint lookup (name : string) (cs : list (string * pystr)) : option pystr :=
  match cs with
  | [] => None
  | (n, s) :: cs' => if String.eqb n name then Some s else lookup name cs'
  end.

(** Whether the pattern of [m] defines a group called [name]. *)
Definition has_group (m : Match) (name : string) : bool :=
  existsb (String.eqb name) (defined m).

(** [m.group(name)]: [IndexError] for a name the pattern does not define,
    [None] for a group that took no part in the match. *)
Definition group (m : Match) (name : string) : result (option pystr) :=
  if has_group m name
  then Ok (lookup name (captured m))
  else Raise IndexError.

Definition mk_match (r : regex) (cs : list (string * pystr)) : Match :=
  {| defined := group_names r; captured := cs |}.

(** ** Scanning: [finditer], [search], [sub]

    The scan walks the text once; [skip] counts the characters still
    covered by the last match.  After an empty match the scan moves on by
    one character. *)
Fixpoint finditer_from (f : flags) (r : regex) (before : option ascii)
    (skip : nat) (s : pystr) : list Match :=
  match s with
  | [] =>
      match skip with
      | O =>
          match match_at f r before [] with
          | Some (_, cs) => [mk_match r cs]
          | None => []
          end
      | S _ => []
      end
  | c :: t =>
      match skip with
      | S n => finditer_from f r (Some c) n t
      | O =>
          match match_at f r before s with
          | Some (n, cs) => mk_match r cs :: finditer_from f r (Some c) (pred n) t
          | None => finditer_from f r (Some c) O t
          end
      end
  end.

(** [re.finditer(r, s, f)], as the list of its matches. *)
Definition finditer (f : flags) (r : regex) (s : pystr) : list Match :=
  finditer_from f r None O s.

Fixpoint search_from (f : flags) (r : regex) (before : option ascii) (s : pystr)
  : option Match :=
  match match_at f r before s with
  | Some (_, cs) => Some (mk_match r cs)
  | None =>
      match s with
      | [] => None
      | c :: t => search_from f r (Some c) t
      end
  end.

(** [re.search(r, s)] *)
Definition search (f : flags) (r : regex) (s : pystr) : option Match :=
  search_from f r None s.

Fixpoint sub_from (f : flags) (r : regex) (repl : pystr) (before : option ascii)
    (skip : nat) (s : pystr) : pystr :=
  match s with
  | [] =>
      match skip with
      | O =>
          match match_at f r before [] with
          | Some _ => repl
          | None => []
          end
      | S _ => []
      end
  | c :: t =>
      match skip with
      | S n => sub_from f r repl (Some c) n t
      | O =>
          match match_at f r before s with
          | Some (S n, _) => repl ++ sub_from f r repl (Some c) n t
          | Some (O, _) => repl ++ c :: sub_from f r repl (Some c) O t
          | None => c :: sub_from f r repl (Some c) O t
          end
      end
  end.

(** [re.sub(r, repl, s, flags=f)] for a replacement without references. *)
Definition sub (f : flags) (r : regex) (repl : pystr) (s : pystr) : pystr :=
  sub_from f r repl None O s.

End Re.
Import Re.

(* ================================================================== *)
(** * Built-ins used by the extractor *)

Definition digit_value (c : ascii) : Z := Z.of_nat (code c - 48).

(** [int(s)] on the strings the extractor passes, the captures of [\d+]:
    a non-empty run of decimal digits is read in base ten; any other
    string is reported as [ValueError].  The interpreter's limit on the
    number of digits ([sys.int_max_str_digits]) is not modelled: integers
    are unbounded. *)
Definition py_int (s : pystr) : result Z :=
  match s with
  | [] => Raise ValueError
  | _ :: _ =>
      if forallb is_digit s
      then Ok (fold_left (fun acc c => (10 * acc + digit_value c)%Z) s 0%Z)
      else Raise ValueError
  end.

(** [min(a, b)]: the first argument unless the second is smaller. *)
Definition py_min (a b : float) : float := if (b <? a)%float then b else a.

(** The truth value of [m.group(name)]: a non-empty string. *)
Definition truthy (g : option pystr) : bool :=
  match g with
  | Some (_ :: _) => true
  | _ => false
  end.

(** [sorted(l, key=key)]: a stable insertion sort. *)
Section Sorted.
Variable A : Type.
Variable key : A -> Z.

Fixpoint insert_by (x : A) (l : list A) : list A :=
  match l with
  | [] => [x]
  | y :: l' => if (key x <=? key y)%Z then x :: l else y :: insert_by x l'
  end.

Definition sorted (l : list A) : list A := fold_right insert_by [] l.
End Sorted.
Arguments insert_by {A} key x l.
Arguments sorted {A} key l.

(* ================================================================== *)
(** * [QuestionExtractor] *)

Record QuestionMatch : Type :=
  { question_id : Z; question_text : pystr; confidence : float }.

(** The dictionaries of the result, with their two keys
    ['question_id'] and ['question']. *)
Record question_dict : Type :=
  { dict_question_id : Z; dict_question : pystr }.

Module QuestionExtractor.

(** [(?:^|\n)] *)
Definition line_start : regex := Alt Bol (Lit newline).
(** [[\s.]?] *)
Definition opt_sep : regex := Opt (Set_ false [CSpace; CChar "."]).
(** [\d+] *)
Definition digits : regex := Plus true (Esc CDigit).
(** [[.:\s]+] *)
Definition seps : regex := Plus true (Set_ false [CChar "."; CChar ":"; CSpace]).
(** [(?P<text>.*?)] *)
Definition text_group : regex := Group "text" (Star false Dot).

(** [(?:^|\n)(?P<marker>Q|Question)[\s.]?(?P<id>\d+)[.:\s]+(?P<text>.*?)(?=(?:\n(?:Q|Question)[\s.]?\d+)|$)] *)
Definition standard_pattern : regex :=
  Cat [ line_start;
        Group "marker" (Alt (Str "Q") (Str "Question"));
        opt_sep;
        Group "id" digits;
        seps;
        text_group;
        Look (Alt (Cat [Lit newline; Alt (Str "Q") (Str "Question"); opt_sep; digits])
                  Eol) ].

(** [(?:^|\n)(?P<id>\d+)[.:\s]+(?P<text>.*?)(?=(?:\n\d+[.:\s]+)|$)] *)
Definition numbered_pattern : regex :=
  Cat [ line_start;
        Group "id" digits;
        seps;
        text_group;
        Look (Alt (Cat [Lit newline; digits; seps]) Eol) ].

(** [(?:^|\n)\[(?P<marker>Q\.?)?(?P<id>\d+)\][.:\s]+(?P<text>.*?)(?=(?:\n\[(?:Q\.?)?\d+\])|$)] *)
Definition bracketed_pattern : regex :=
  Cat [ line_start;
        Lit "[";
        Opt (Group "marker" (Cat [Lit "Q"; Opt (Lit ".")]));
        Group "id" digits;
        Lit "]";
        seps;
        text_group;
        Look (Alt (Cat [Lit newline; Lit "["; Opt (Cat [Lit "Q"; Opt (Lit ".")]);
                        digits; Lit "]"])
                  Eol) ].

(** [(?:^|\n)(?P<marker>Problem|Exercise)[\s.]?(?P<id>\d+)[.:\s]+(?P<text>.*?)(?=(?:\n(?:Problem|Exercise)[\s.]?\d+)|$)] *)
Definition problem_pattern : regex :=
  Cat [ line_start;
        Group "marker" (Alt (Str "Problem") (Str "Exercise"));
        opt_sep;
        Group "id" digits;
        seps;
        text_group;
        Look (Alt (Cat [Lit newline; Alt (Str "Problem") (Str "Exercise"); opt_sep;
                        digits])
                  Eol) ].

Definition PATTERNS : list regex :=
  [standard_pattern; numbered_pattern; bracketed_pattern; problem_pattern].

(** [.*] *)
Definition to_eol : regex := Star true Dot.

Definition NOISE_PATTERNS : list regex :=
  [ Cat [Str "Here is the answer to the question"; to_eol];
    Str "I hope this helps!";
    Cat [Str "Let me know if you have any further questions"; to_eol];
    Cat [Str "In summary,"; to_eol];
    Cat [Str "The following are key points"; to_eol];
    Cat [Str "Please note that"; to_eol];
    Str "Answer in HTML format:";
    Cat [Str "know if you need any changes"; to_eol] ].

Definition re_IGNORECASE : flags :=
  {| IGNORECASE := true; MULTILINE := false; DOTALL := false |}.

(** [re.MULTILINE | re.DOTALL] *)
Definition re_MULTILINE_DOTALL : flags :=
  {| IGNORECASE := false; MULTILINE := true; DOTALL := true |}.

(** [\s+] *)
Definition spaces : regex := Plus true (Esc CSpace).
(** [\n\s*\n] *)
Definition blank_lines : regex :=
  Cat [Lit newline; Star true (Esc CSpace); Lit newline].
(** [Q\s*\.\s*] *)
Definition q_marker : regex :=
  Cat [Lit "Q"; Star true (Esc CSpace); Lit "."; Star true (Esc CSpace)].
(** [Question\s+] *)
Definition question_marker : regex := Cat [Str "Question"; spaces].
(** [[^\w\s\n.?,:;()\[\]-]] *)
Definition unwanted : regex :=
  Set_ true [ CWord; CSpace; CChar newline; CChar "."; CChar "?"; CChar ",";
              CChar ":"; CChar ";"; CChar "("; CChar ")"; CChar "["; CChar "]";
              CChar "-" ].

Definition _clean_text (text : pystr) : pystr :=
  (* Remove noise patterns *)
  let text :=
    fold_left (fun text pattern => sub re_IGNORECASE pattern [] text)
              NOISE_PATTERNS text in
  (* Normalize whitespace *)
  let text := sub no_flags spaces (str " ") text in
  let text := sub no_flags blank_lines [newline] text in
  (* Normalize question markers *)
  let text := sub no_flags q_marker (str "Q.") text in
  let text := sub no_flags question_marker (str "Question ") text in
  (* Remove unwanted characters *)
  let text := sub no_flags unwanted [] text in
  strip text.

(** [^[A-Z]] *)
Definition capital_start : regex := Cat [Bol; Set_ false [CRange "A" "Z"]].

Definition is_some {A : Type} (o : option A) : bool :=
  match o with Some _ => true | None => false end.

Definition _calculate_confidence (text : pystr) (m : Match) : result float :=
  let confidence := 1.0%float in
  (* Length-based confidence *)
  let confidence :=
    if length text <? 10 then (confidence * 0.5)%float
    else if 500 <? length text then (confidence * 0.8)%float
    else confidence in
  (* Pattern-based confidence *)
  marker <- group m "marker" ;;
  let confidence := if truthy marker then (confidence * 1.2)%float else confidence in
  (* Question mark presence *)
  let confidence :=
    if contains "?" text then (confidence * 1.1)%float else confidence in
  (* Structural indicators: the branch leaves the score as it is *)
  let confidence :=
    if is_some (search no_flags capital_start text) then confidence else confidence in
  Ok (py_min confidence 1.0%float).

(** The state of the two loops of [_extract_with_confidence]:
    [question_matches] and [seen_questions]. *)
Definition loop_state : Type := (list QuestionMatch * list Z)%type.

Definition seen (q_id : Z) (seen_questions : list Z) : bool :=
  existsb (Z.eqb q_id) seen_questions.

(** The body of the inner loop, for one match. *)
Definition match_body (st : loop_state) (m : Match) : result loop_state :=
  let '(question_matches, seen_questions) := st in
  g_id <- group m "id" ;;
  q_id <- match g_id with Some s => py_int s | None => Raise TypeError end ;;
  g_text <- group m "text" ;;
  q_text <- match g_text with Some s => Ok (strip s) | None => Raise AttributeError end ;;
  (* Skip if we've seen this question ID *)
  if seen q_id seen_questions then Ok st
  else
    confidence <- _calculate_confidence q_text m ;;
    if (0.5 <? confidence)%float
    then Ok (question_matches
               ++ [{| question_id := q_id; question_text := q_text;
                      confidence := confidence |}],
             q_id :: seen_questions)
    else Ok st.

(** The body of the outer loop, for one pattern. *)
Definition pattern_body (text : pystr) (st : loop_state) (pattern : regex)
  : result loop_state :=
  for_each match_body (finditer re_MULTILINE_DOTALL pattern text) st.

Definition _extract_with_confidence (text : pystr) : result (list QuestionMatch) :=
  st <- for_each (pattern_body text) PATTERNS ([], []) ;;
  Ok (sorted question_id (fst st)).

Definition _final_clean (text : pystr) : pystr :=
  let text := sub no_flags spaces (str " ") text in
  let text := strip text in
  (* Ensure proper ending punctuation *)
  match last_char text with
  | Some c => if negb (contains c (str ".?")) then text ++ str "." else text
  | None => text
  end.

Fixpoint _post_process_questions (matches : list QuestionMatch)
  : list question_dict :=
  match matches with
  | [] => []
  | m :: matches' =>
      let cleaned_text := _final_clean (question_text m) in
      match cleaned_text with
      | [] => _post_process_questions matches'
      | _ :: _ =>
          {| dict_question_id := question_id m; dict_question := cleaned_text |}
          :: _post_process_questions matches'
      end
  end.

(** [extract_questions], from [text_blocks] on: reading the document
    ([_extract_text_blocks], which calls PyMuPDF) is outside the model, and
    the handler of the [try] logs the exception and raises it again. *)
Definition extract_questions (text_blocks : pystr) : result (list question_dict) :=
  let cleaned_text := _clean_text text_blocks in
  questions <- _extract_with_confidence cleaned_text ;;
  let validated_questions := _post_process_questions questions in
  Ok validated_questions.

End QuestionExtractor.
Import QuestionExtractor.

(* ================================================================== *)
(** * [_extract_text_blocks] and the entry point on a document *)

Module PdfText.

(** What [page.get_text("dict")["blocks"]] gives for the pages of the
    opened document: a block is a dictionary that has a ["lines"] key when
    it is a text block; a line has ["spans"]; a span has ["text"] and may
    have ["flags"]. *)
Record Span : Type := { span_text : pystr; span_flags : option Z }.
Record Line : Type := { line_spans : list Span }.
Record Block : Type := { block_lines : option (list Line) }.
Definition Page : Type := list Block.
Definition PdfDocument : Type := list Page.

(** [sep.join(l)] *)
Fixpoint join (sep : pystr) (l : list pystr) : pystr :=
  match l with
  | [] => []
  | x :: l' =>
      match l' with
      | [] => x
      | _ :: _ => x ++ sep ++ join sep l'
      end
  end.

(** [span.get("flags", 0)] *)
Definition get_flags (span : Span) : Z :=
  match span_flags span with
  | Some flags => flags
  | None => 0%Z
  end.

(** The body of the loop over the spans of a line. *)
Definition span_body (text_blocks : list pystr) (span : Span) : list pystr :=
  let text_blocks := text_blocks ++ [span_text span] in
  (* Preserve natural line breaks *)
  if negb (Z.land (get_flags span) (2 ^ 0) =? 0)%Z
  then text_blocks ++ [[newline]]
  else text_blocks.

Definition line_body (text_blocks : list pystr) (line : Line) : list pystr :=
  fold_left span_body (line_spans line) text_blocks.

Definition block_body (text_blocks : list pystr) (block : Block) : list pystr :=
  match block_lines block with
  | Some lines => fold_left line_body lines text_blocks
  | None => text_blocks
  end.

Definition page_body (text_blocks : list pystr) (page : Page) : list pystr :=
  fold_left block_body page text_blocks.

(** [_extract_text_blocks], from the opened document on. *)
Definition _extract_text_blocks (doc : PdfDocument) : pystr :=
  let text_blocks := fold_left page_body doc [] in
  join (str " ") text_blocks.

(** [extract_questions] on an opened document. *)
Definition extract_questions_of_document (doc : PdfDocument)
  : result (list question_dict) :=
  extract_questions (_extract_text_blocks doc).

End PdfText.
Import PdfText.

(* ================================================================== *)
(** * The models: [core/models/api_response.py], [core/models/document.py]

    A table is the list of its rows, in the order of their insertion.  The
    clock reading and the key the database hands out on an insert are
    inputs of [save].  Of the constraints of the database only
    [unique_together] is modelled. *)

Module Orm.

Inductive db_exn : Type :=
| IntegrityError   (* a row would break [unique_together] *)
| NotSaved.        (* [delete] on an instance whose key is [None] *)

Inductive outcome (A : Type) : Type :=
| Done (a : A)
| Fails (e : db_exn).
Arguments Done {A} a.
Arguments Fails {A} e.

Definition pk_eqb (a b : option Z) : bool :=
  match a, b with
  | Some x, Some y => (x =? y)%Z
  | None, None => true
  | _, _ => false
  end.

End Orm.
Import Orm.

Module ApiResponseModel.

Record APIResponse : Type :=
  { pk : option Z;
    question : pystr;
    answer : option pystr;
    question_id : Z;
    detail_level : pystr;
    document : Z;                 (* the key of the document *)
    user : Z;                     (* the key of the user *)
    created_at : option Z;
    updated_at : option Z;
    generation_time : option float;
    tokens_used : option Z }.

Definition with_question_id (self : APIResponse) (v : Z) : APIResponse :=
  {| pk := pk self; question := question self; answer := answer self;
     question_id := v; detail_level := detail_level self;
     document := document self; user := user self;
     created_at := created_at self; updated_at := updated_at self;
     generation_time := generation_time self; tokens_used := tokens_used self |}.

(** What [super().save()] writes into the instance: the key on an insert,
    [created_at] on an insert ([auto_now_add]), [updated_at] always
    ([auto_now]). *)
Definition stamped (self : APIResponse) (key : option Z) (adding : bool) (now : Z)
  : APIResponse :=
  {| pk := key; question := question self; answer := answer self;
     question_id := question_id self; detail_level := detail_level self;
     document := document self; user := user self;
     created_at := if adding then Some now else created_at self;
     updated_at := Some now;
     generation_time := generation_time self; tokens_used := tokens_used self |}.

(** [unique_together = ['document', 'question_id']]: no other row has the
    document and the question id of [r]. *)
Definition unique_together_ok (rows : list APIResponse) (r : APIResponse) : bool :=
  forallb (fun x => pk_eqb (pk x) (pk r)
                    || negb ((document x =? document r)%Z
                             && (question_id x =? question_id r)%Z)) rows.

(** [super().save()]: an instance without a key is inserted under
    [new_pk]; an instance with a key replaces the row of that key, or is
    inserted under it when there is none. *)
Definition model_save (now new_pk : Z) (rows : list APIResponse)
    (self : APIResponse) : outcome (list APIResponse * APIResponse) :=
  match pk self with
  | Some k =>
      if existsb (fun x => pk_eqb (pk x) (Some k)) rows then
        let self := stamped self (Some k) false now in
        if unique_together_ok rows self
        then Done (map (fun x => if pk_eqb (pk x) (Some k) then self else x) rows,
                   self)
        else Fails IntegrityError
      else
        let self := stamped self (Some k) true now in
        if unique_together_ok rows self
        then Done (rows ++ [self], self) else Fails IntegrityError
  | None =>
      let self := stamped self (Some new_pk) true now in
      if unique_together_ok rows self
      then Done (rows ++ [self], self) else Fails IntegrityError
  end.

(** [not self.pk] *)
Definition not_pk (key : option Z) : bool :=
  match key with
  | None => true
  | Some k => (k =? 0)%Z
  end.

(** [qs.aggregate(models.Max('question_id'))['question_id__max']] *)
Definition aggregate_max (qs : list APIResponse) : option Z :=
  match qs with
  | [] => None
  | r :: qs' => Some (fold_left Z.max (map question_id qs') (question_id r))
  end.

(** [v or 0] *)
Definition or_0 (v : option Z) : Z :=
  match v with
  | Some m => if (m =? 0)%Z then 0%Z else m
  | None => 0%Z
  end.

(** [APIResponse.objects.filter(document=d)] *)
Definition filter_document (d : Z) (rows : list APIResponse) : list APIResponse :=
  filter (fun r => (document r =? d)%Z) rows.

Definition save (now new_pk : Z) (rows : list APIResponse) (self : APIResponse)
  : outcome (list APIResponse * APIResponse) :=
  (* Ensure question_id is unique per document *)
  let self :=
    if not_pk (pk self) then
      let existing_max := aggregate_max (filter_document (document self) rows) in
      with_question_id self (or_0 existing_max + 1)%Z
    else self in
  model_save now new_pk rows self.

End ApiResponseModel.

Module DocumentModel.

(** A file field of an instance: the name stored in the row, and what the
    storage answers for [.path] and [.size]. *)
Record FieldFile : Type :=
  { f_name : option pystr; f_path : pystr; f_size : Z }.

(** The truth value of a file field: it has a non-empty name. *)
Definition has_file (f : FieldFile) : bool := truthy (f_name f).

Record Document : Type :=
  { pk : option Z;
    name : pystr;
    file : FieldFile;
    answers : FieldFile;
    preview : FieldFile;
    status : pystr;
    processing_error : option pystr;
    uploaded_at : option Z;
    updated_at : option Z;
    user : Z;                     (* the key of the user *)
    file_size : option Z }.

(** The two tables. *)
Record database : Type :=
  { documents : list Document;
    responses : list ApiResponseModel.APIResponse }.

(** The file system: what is at a path.  [os.remove] deletes a [File] and
    raises [OSError] on an entry that is [Stuck] (a directory, a file that
    may not be removed). *)
Inductive entry : Type := File | Stuck.

Definition filesystem : Type := pystr -> option entry.

Fixpoint path_eqb (p q : pystr) : bool :=
  match p, q with
  | [], [] => true
  | c :: p', d :: q' => Ascii.eqb c d && path_eqb p' q'
  | _, _ => false
  end.

(** [os.path.exists(p)] *)
Definition os_path_exists (fs : filesystem) (p : pystr) : bool :=
  match fs p with Some _ => true | None => false end.

(** [os.remove(p)]: the file system without [p], or [None] for [OSError]. *)
Definition os_remove (fs : filesystem) (p : pystr) : option filesystem :=
  match fs p with
  | Some File => Some (fun q => if path_eqb q p then None else fs q)
  | _ => None
  end.

(** [super().delete()]: the row of the document goes, and with it the
    responses that refer to it ([on_delete=models.CASCADE]); an instance
    without a key cannot be deleted. *)
Definition model_delete (db : database) (self : Document) : outcome database :=
  match pk self with
  | None => Fails NotSaved
  | Some k =>
      Done {| documents :=
                filter (fun d => negb (pk_eqb (pk d) (Some k))) (documents db);
              responses :=
                filter (fun r => negb (ApiResponseModel.document r =? k)%Z)
                       (responses db) |}
  end.

(** [f.path if f else None] *)
Definition path_if (f : FieldFile) : option pystr :=
  if has_file f then Some (f_path f) else None.

(** The body of the loop over [files_to_delete]. *)
Definition remove_body (fs : filesystem) (file_path : option pystr) : filesystem :=
  match file_path with
  | Some p =>
      if truthy (Some p) && os_path_exists fs p then
        match os_remove fs p with
        | Some fs' => fs'
        | None => fs          (* except OSError: pass *)
        end
      else fs
  | None => fs
  end.

Definition delete (db : database) (fs : filesystem) (self : Document)
  : outcome (database * filesystem) :=
  (* Store file paths before deletion *)
  let files_to_delete :=
    [path_if (file self); path_if (answers self); path_if (preview self)] in
  (* Delete the model instance *)
  match model_delete db self with
  | Fails e => Fails e
  | Done db =>
      (* Clean up files after successful model deletion *)
      Done (db, fold_left remove_body files_to_delete fs)
  end.

End DocumentModel.

Module DocumentService.

(** [APIResponse.objects.filter(document=document).delete()] *)
Definition delete_responses (db : DocumentModel.database) (k : Z)
  : DocumentModel.database :=
  {| DocumentModel.documents := DocumentModel.documents db;
     DocumentModel.responses :=
       filter (fun r => negb (ApiResponseModel.document r =? k)%Z)
              (DocumentModel.responses db) |}.

(** [delete_document_with_files]; its handler logs the exception and
    raises it again.  For a document without a key nothing is deleted
    before the exception. *)
Definition delete_document_with_files (db : DocumentModel.database)
    (fs : DocumentModel.filesystem) (document : DocumentModel.Document)
  : outcome (DocumentModel.database * DocumentModel.filesystem) :=
  match DocumentModel.pk document with
  | None => Fails NotSaved
  | Some k =>
      (* Delete associated responses first *)
      let db := delete_responses db k in
      (* Document's delete method will handle file deletion *)
      DocumentModel.delete db fs document
  end.

End DocumentService.

(* ================================================================== *)
(** * Definitions used by the statements and the proofs *)

(** The number of leading characters of [s] that satisfy [p]. *)
Fixpoint span (p : ascii -> bool) (s : pystr) : nat :=
  match s with
  | [] => 0
  | c :: t => if p c then S (span p t) else 0
  end.

(** What [re.sub(r'\s+', ' ', s)] computes, written as a single pass:
    [in_run] tells whether the previous character was whitespace. *)
Fixpoint squeeze (in_run : bool) (s : pystr) : pystr :=
  match s with
  | [] => []
  | c :: t =>
      if is_space c
      then if in_run then squeeze true t else space :: squeeze true t
      else c :: squeeze false t
  end.

(** [s] is empty or starts with a character that is not whitespace. *)
Definition head_not_space (s : pystr) : Prop :=
  match s with
  | [] => True
  | c :: _ => is_space c = false
  end.

(** Every whitespace character of [s] is a space that is followed by a
    character that is not whitespace, or by nothing. *)
Fixpoint tidy (s : pystr) : Prop :=
  match s with
  | [] => True
  | c :: t => (is_space c = true -> c = space /\ head_not_space t) /\ tidy t
  end.

(** [s] ends in a full stop or a question mark. *)
Definition ends_in_stop (s : pystr) : Prop :=
  last_char s = Some "."%char \/ last_char s = Some "?"%char.

(** The first character each pattern needs. *)
Definition starts_standard (c : ascii) : bool := Ascii.eqb c "Q".
Definition starts_numbered (c : ascii) : bool := is_digit c.
Definition starts_bracketed (c : ascii) : bool := Ascii.eqb c "[".
Definition starts_problem (c : ascii) : bool := Ascii.eqb c "P" || Ascii.eqb c "E".

(** [q] is the candidate the inner loop builds from the match [m], and
    its score passes the threshold: the id is the integer value of the
    [id] capture, the text is the stripped [text] capture, the score is
    what [_calculate_confidence] returns for them and exceeds 0.5. *)
Definition candidate (m : Match) (q : QuestionMatch) : Prop :=
  (exists s, group m "id" = Ok (Some s) /\ py_int s = Ok (question_id q))
  /\ (exists s, group m "text" = Ok (Some s) /\ question_text q = strip s)
  /\ _calculate_confidence (question_text q) m = Ok (confidence q)
  /\ (0.5 <? confidence q)%float = true.

(** The invariant of the loops: the accepted ids are pairwise distinct and
    all recorded in [seen_questions]. *)
Definition well_formed (st : loop_state) : Prop :=
  NoDup (map question_id (fst st))
  /\ forall x, In x (map question_id (fst st)) -> In x (snd st).

(** The score as the specification words it: the product of a length
    factor, a marker factor and a question-mark factor, capped at 1. *)
Definition f_len (text : pystr) : float :=
  if length text <? 10 then 0.5%float
  else if 500 <? length text then 0.8%float
  else 1.0%float.

(** The marker capture group is non-empty. *)
Definition marker_non_empty (m : Match) : bool :=
  match group m "marker" with
  | Ok g => truthy g
  | Raise _ => false
  end.

Definition f_marker (m : Match) : float :=
  if marker_non_empty m then 1.2%float else 1.0%float.

Definition f_qmark (text : pystr) : float :=
  if contains "?" text then 1.1%float else 1.0%float.

Definition confidence_formula (text : pystr) (m : Match) : float :=
  py_min 1.0%float (1.0 * f_len text * f_marker m * f_qmark text)%float.

(** ** What a successful match went through

    [steps f r st st1]: the pattern [r] can take the matcher from the state
    [st] to the state [st1].  It describes every path the backtracking
    matcher may commit to. *)
Inductive steps (f : flags) : regex -> mstate -> mstate -> Prop :=
| steps_Eps st : steps f Eps st st
| steps_Lit d st c t :
    rest st = c :: t -> lit_ok f d c = true ->
    steps f (Lit d) st {| prev := Some c; rest := t; caps := caps st |}
| steps_Dot st c t :
    rest st = c :: t -> dot_ok f c = true ->
    steps f Dot st {| prev := Some c; rest := t; caps := caps st |}
| steps_Set negated items st c t :
    rest st = c :: t -> in_set negated items c = true ->
    steps f (Set_ negated items) st {| prev := Some c; rest := t; caps := caps st |}
| steps_Bol st : at_bol f st = true -> steps f Bol st st
| steps_Eol st : at_eol f st = true -> steps f Eol st st
| steps_Seq r1 r2 st st1 st2 :
    steps f r1 st st1 -> steps f r2 st1 st2 -> steps f (Seq r1 r2) st st2
| steps_Alt_l r1 r2 st st1 : steps f r1 st st1 -> steps f (Alt r1 r2) st st1
| steps_Alt_r r1 r2 st st1 : steps f r2 st st1 -> steps f (Alt r1 r2) st st1
| steps_Star_stop greedy r st : steps f (Star greedy r) st st
| steps_Star_more greedy r st st1 st2 :
    steps f r st st1 -> length (rest st1) < length (rest st) ->
    steps f (Star greedy r) st1 st2 -> steps f (Star greedy r) st st2
| steps_Group name r st st1 :
    steps f r st st1 ->
    steps f (Group name r) st (set_cap name (consumed st st1) st1)
| steps_Look r st st1 :
    steps f r st st1 -> steps f (Look r) st (with_caps st (caps st1)).

(** ** Tactics *)

(** A pattern fails at the start of a text whose first character is not
    the one it needs. *)
Ltac first_char_fails :=
  intros Hn Hc; unfold match_at;
  cbn [run Cat fold_right line_start Str map str list_ascii_of_string];
  unfold at_bol; cbn [prev]; cbn [run]; unfold eat; cbn [rest];
  unfold lit_ok; cbn [IGNORECASE re_MULTILINE_DOTALL];
  repeat rewrite Hc; rewrite Hn; reflexivity.

(** A list of group names does not hold a given name. *)
Ltac no_such_group := cbn; intuition discriminate.

(** ** Definitions for the further properties *)

(** The characters [_clean_text] lets through: word characters, the
    space, and the punctuation of its last substitution. *)
Definition allowed (c : ascii) : bool :=
  is_word c || Ascii.eqb c space || contains c (str ".?,:;()[]-").

(** The matches the two loops of [_extract_with_confidence] go through,
    in their order: pattern by pattern, and in text order for a pattern. *)
Definition all_matches (text : pystr) : list Match :=
  flat_map (fun pattern => finditer re_MULTILINE_DOTALL pattern text) PATTERNS.

(** The text of a candidate is short, its match has no marker, and the
    text has no question mark. *)
Definition weak_candidate (text : pystr) (m : Match) : bool :=
  (length text <? 10) && negb (marker_non_empty m) && negb (contains "?" text).

(** The pieces [_extract_text_blocks] joins: the text of each span, and a
    newline after a span whose flags have bit 0 set. *)
Definition span_pieces (span : Span) : list pystr :=
  if Z.odd (get_flags span) then [span_text span; [newline]] else [span_text span].

Definition block_spans (block : Block) : list Span :=
  match block_lines block with
  | Some lines => flat_map line_spans lines
  | None => []
  end.

(** The spans of a document, in reading order. *)
Definition all_spans (doc : PdfDocument) : list Span :=
  flat_map (flat_map block_spans) doc.

(** ** Definitions for the properties of the models *)

(** The question ids stored for a document. *)
Definition ids_of (d : Z) (rows : list ApiResponseModel.APIResponse) : list Z :=
  map ApiResponseModel.question_id (ApiResponseModel.filter_document d rows).

(** [unique_together] holds in a table. *)
Definition unique_ids (rows : list ApiResponseModel.APIResponse) : Prop :=
  forall d, NoDup (ids_of d rows).

(** The ids stored for a document are exactly 1, ..., [k]. *)
Definition numbered (d : Z) (rows : list ApiResponseModel.APIResponse) (k : Z)
  : Prop :=
  forall x, In x (ids_of d rows) <-> (1 <= x <= k)%Z.

(** The path a step of the clean-up acts on. *)
Definition targets (file_path : option pystr) (p : pystr) : bool :=
  match file_path with
  | Some p' => DocumentModel.path_eqb p p' && truthy (Some p')
  | None => false
  end.

(** The path [p] is one of those [Document.delete] collects for [self]. *)
Definition own_path (self : DocumentModel.Document) (p : pystr) : bool :=
  existsb (fun f => DocumentModel.has_file f
                    && DocumentModel.path_eqb p (DocumentModel.f_path f))
          [DocumentModel.file self; DocumentModel.answers self;
           DocumentModel.preview self].

(** The file system after the files of [self] have been cleaned up: its
    paths that held a removable file are gone, the rest is as before. *)
Definition cleaned (self : DocumentModel.Document) (fs : DocumentModel.filesystem)
  : DocumentModel.filesystem :=
  fun p =>
    match fs p with
    | Some DocumentModel.File =>
        if own_path self p && truthy (Some p) then None
        else Some DocumentModel.File
    | other => other
    end.

(** ** Inputs of the examples *)

Definition boundary_input : pystr :=
  str "Q1. First question text here Q2. Second question text here".

Definition noise_input : pystr :=
  str "Q.1 What is X? Here is the answer to the question: blah. I hope this helps!".

Definition numbered_input : pystr := str "1. What is the capital of France?".

(** Two lines in the bracketed format with the same id. *)
Definition repeated_id_input : pystr :=
  str "[1] Hi" ++ newline :: str "[1] What is the capital of France?".

(** Three lines in three formats, out of order. *)
Definition three_lines_input : pystr :=
  str "Question 12: why?" ++ newline :: str "[1] What is the capital of France?"
  ++ newline :: str "Q3 abc".

(** The properties of a record of the result. *)
Definition well_ended (d : question_dict) : Prop :=
  dict_question d <> [] /\ ends_in_stop (dict_question d).

(** The ids of a list of records are strictly increasing. *)
Definition increasing_ids (records : list question_dict) : Prop :=
  StronglySorted Z.lt (map dict_question_id records).

(** A response as a caller builds it, and a table of two stored ones. *)
Definition new_response (d qid : Z) : ApiResponseModel.APIResponse :=
  {| ApiResponseModel.pk := None;
     ApiResponseModel.question := str "What is X?";
     ApiResponseModel.answer := None;
     ApiResponseModel.question_id := qid;
     ApiResponseModel.detail_level := str "medium";
     ApiResponseModel.document := d;
     ApiResponseModel.user := 1;
     ApiResponseModel.created_at := None;
     ApiResponseModel.updated_at := None;
     ApiResponseModel.generation_time := None;
     ApiResponseModel.tokens_used := None |}.

Definition stored_response (key d qid : Z) : ApiResponseModel.APIResponse :=
  ApiResponseModel.stamped (new_response d qid) (Some key) true 50.

(** A stored document with a file and a preview, and a file system on
    which the preview cannot be removed. *)
Definition example_document : DocumentModel.Document :=
  {| DocumentModel.pk := Some 7%Z;
     DocumentModel.name := str "a.pdf";
     DocumentModel.file :=
       {| DocumentModel.f_name := Some (str "documents/a.pdf");
          DocumentModel.f_path := str "/media/documents/a.pdf";
          DocumentModel.f_size := 10 |};
     DocumentModel.answers :=
       {| DocumentModel.f_name := None;
          DocumentModel.f_path := [];
          DocumentModel.f_size := 0 |};
     DocumentModel.preview :=
       {| DocumentModel.f_name := Some (str "previews/a.png");
          DocumentModel.f_path := str "/media/previews/a.png";
          DocumentModel.f_size := 5 |};
     DocumentModel.status := str "pending";
     DocumentModel.processing_error := None;
     DocumentModel.uploaded_at := Some 50%Z;
     DocumentModel.updated_at := Some 50%Z;
     DocumentModel.user := 1;
     DocumentModel.file_size := Some 10%Z |}.

Definition example_database : DocumentModel.database :=
  {| DocumentModel.documents := [example_document];
     DocumentModel.responses :=
       [stored_response 1 7 1; stored_response 2 8 1; stored_response 3 7 2] |}.

Definition example_filesystem : DocumentModel.filesystem :=
  fun p =>
    if DocumentModel.path_eqb p (str "/media/documents/a.pdf")
    then Some DocumentModel.File
    else if DocumentModel.path_eqb p (str "/media/previews/a.png")
         then Some DocumentModel.Stuck
         else if DocumentModel.path_eqb p (str "/media/documents/b.pdf")
              then Some DocumentModel.File
              else None.

(* ================================================================== *)
(** * The matcher *)

(** Three results given in the documentation of [re]. *)
Example sub_empty_matches :
  sub no_flags (Star true (Lit "x")) (str "-") (str "abxd") = str "-a-b--d-".
Proof. reflexivity. Qed.

Example sub_ignorecase :
  sub re_IGNORECASE (Cat [Esc CSpace; Str "AND"; Esc CSpace]) (str " & ")
      (str "Baked Beans And Spam")
  = str "Baked Beans & Spam".
Proof. reflexivity. Qed.

Example search_lazy :
  option_map captured
    (search no_flags (Group "tag" (Cat [Lit "<"; Star false Dot; Lit ">"]))
            (str "<a> b <c>"))
  = Some [("tag"%string, str "<a>")].
Proof. reflexivity. Qed.

(** The matcher only looks at what the continuation returns. *)
Lemma star_loop_ext body (greedy : bool) (k k' : mstate -> option mstate) :
  (forall st h h', (forall s, h s = h' s) -> body st h = body st h') ->
  (forall s, k s = k' s) ->
  forall n st, star_loop body greedy k n st = star_loop body greedy k' n st.
Proof.
  intros Hb Hk. induction n as [|n IH]; intros st; cbn [star_loop]; [apply Hk|].
  rewrite (Hb st _ (fun st1 =>
             if length (rest st1) <? length (rest st)
             then star_loop body greedy k' n st1 else None)), (Hk st);
    [reflexivity|].
  intros s. destruct (length (rest s) <? length (rest st)); [apply IH | reflexivity].
Qed.

Lemma run_ext (f : flags) (r : regex) : forall st (k k' : mstate -> option mstate),
  (forall s, k s = k' s) -> run f r st k = run f r st k'.
Proof.
  induction r as [| d | | negated items | | | r1 IH1 r2 IH2 | r1 IH1 r2 IH2
                 | greedy r1 IH1 | name r1 IH1 | r1 IH1];
    intros st k k' Hk; cbn [run];
    try (unfold eat; destruct (rest st) as [|c t]; [reflexivity|];
         match goal with |- (if ?b then _ else _) = _ => destruct b end;
         [apply Hk | reflexivity]).
  - apply Hk.
  - rewrite (Hk st). reflexivity.
  - rewrite (Hk st). reflexivity.
  - apply IH1. intros s. apply IH2. exact Hk.
  - rewrite (IH1 st k k' Hk), (IH2 st k k' Hk). reflexivity.
  - apply star_loop_ext; [|exact Hk]. intros st0 h h'. apply IH1.
  - apply IH1. intros s. apply Hk.
  - destruct (run f r1 st Some); [apply Hk | reflexivity].
Qed.

(** The matcher succeeds only through its continuation. *)
Lemma star_loop_fail body (greedy : bool) :
  (forall st, body st (fun _ => None) = None) ->
  (forall st h h', (forall s, h s = h' s) -> body st h = body st h') ->
  forall n st, star_loop body greedy (fun _ => None) n st = None.
Proof.
  intros Hf Hb. induction n as [|n IH]; intros st; cbn [star_loop]; [reflexivity|].
  rewrite (Hb st _ (fun _ => None)); [rewrite Hf; destruct greedy; reflexivity|].
  intros s. destruct (length (rest s) <? length (rest st)); [apply IH | reflexivity].
Qed.

Lemma run_fail (f : flags) (r : regex) : forall st, run f r st (fun _ => None) = None.
Proof.
  induction r as [| d | | negated items | | | r1 IH1 r2 IH2 | r1 IH1 r2 IH2
                 | greedy r1 IH1 | name r1 IH1 | r1 IH1];
    intros st; cbn [run];
    try (unfold eat; destruct (rest st) as [|c t]; [reflexivity|];
         match goal with |- (if ?b then _ else _) = _ => destruct b end;
         reflexivity).
  - reflexivity.
  - destruct (at_bol f st); reflexivity.
  - destruct (at_eol f st); reflexivity.
  - rewrite (run_ext f r1 st _ (fun _ => None)); [apply IH1 | exact IH2].
  - rewrite IH1, IH2. reflexivity.
  - apply star_loop_fail; [exact IH1 | intros st0 h h'; apply run_ext].
  - apply IH1.
  - destruct (run f r1 st Some); reflexivity.
Qed.

(** A starred expression never runs out of iterations: an iteration has to
    consume a character, so one iteration per remaining character is
    enough, and more change nothing. *)
Lemma star_loop_enough (f : flags) (r : regex) (greedy : bool)
    (k : mstate -> option mstate) : forall n n' st,
  length (rest st) <= n -> length (rest st) <= n' ->
  star_loop (run f r) greedy k n st = star_loop (run f r) greedy k n' st.
Proof.
  assert (Z0 : forall n st, length (rest st) = 0 ->
               star_loop (run f r) greedy k n st = k st).
  { intros [|n] st L; cbn [star_loop]; [reflexivity|].
    rewrite (run_ext f r st _ (fun _ => None)).
    - rewrite run_fail. destruct greedy; [|destruct (k st)]; reflexivity.
    - intros s. rewrite L. reflexivity. }
  induction n as [|n IH]; intros n' st Hn Hn'.
  - rewrite !Z0 by lia. reflexivity.
  - destruct n' as [|n']; [rewrite !Z0 by lia; reflexivity|].
    cbn [star_loop].
    rewrite (run_ext f r st _ (fun st1 =>
               if length (rest st1) <? length (rest st)
               then star_loop (run f r) greedy k n' st1 else None));
      [reflexivity|].
    intros s. destruct (length (rest s) <? length (rest st)) eqn:L; [|reflexivity].
    apply Nat.ltb_lt in L. apply IH; lia.
Qed.

(** ** Soundness of the matcher with respect to [steps] *)

Lemma eat_sound (p : ascii -> bool) st (k : mstate -> option mstate) res :
  eat p st k = Some res ->
  exists c t, rest st = c :: t /\ p c = true
              /\ k {| prev := Some c; rest := t; caps := caps st |} = Some res.
Proof.
  unfold eat. destruct (rest st) as [|c t]; [discriminate|].
  destruct (p c) eqn:P; [|discriminate]. intros H. exists c, t. auto.
Qed.

Lemma star_loop_sound (f : flags) (r : regex) (greedy : bool)
    (k : mstate -> option mstate) :
  (forall st h res, run f r st h = Some res ->
     exists st1, steps f r st st1 /\ h st1 = Some res) ->
  forall n st res,
    star_loop (run f r) greedy k n st = Some res ->
    exists st1, steps f (Star greedy r) st st1 /\ k st1 = Some res.
Proof.
  intros Hr. induction n as [|n IH]; intros st res H; cbn [star_loop] in H.
  - exists st. split; [constructor | exact H].
  - assert (More : forall x,
              run f r st (fun st1 =>
                if length (rest st1) <? length (rest st)
                then star_loop (run f r) greedy k n st1 else None) = Some x ->
              exists st1, steps f (Star greedy r) st st1 /\ k st1 = Some x).
    { intros x Hx. apply Hr in Hx. destruct Hx as [st1 [S1 Hx]].
      destruct (length (rest st1) <? length (rest st)) eqn:L; [|discriminate].
      apply Nat.ltb_lt in L. apply IH in Hx. destruct Hx as [st2 [S2 Hk]].
      exists st2. split; [|exact Hk]. eapply steps_Star_more; eassumption. }
    destruct greedy.
    + destruct (run f r st _) as [x|] eqn:E.
      * injection H as <-. apply More. reflexivity.
      * exists st. split; [constructor | exact H].
    + destruct (k st) as [x|] eqn:E.
      * injection H as <-. exists st. split; [constructor | exact E].
      * apply More. exact H.
Qed.

(** Whatever the matcher returns, it returns through its continuation, at
    a state the pattern leads to. *)
Lemma run_sound (f : flags) (r : regex) : forall st k res,
  run f r st k = Some res -> exists st1, steps f r st st1 /\ k st1 = Some res.
Proof.
  induction r as [| d | | negated items | | | r1 IH1 r2 IH2 | r1 IH1 r2 IH2
                 | greedy r1 IH1 | name r1 IH1 | r1 IH1];
    intros st k res H; cbn [run] in H.
  - exists st. split; [constructor | exact H].
  - apply eat_sound in H. destruct H as [c [t [R [P K]]]].
    eexists. split; [econstructor; eassumption | exact K].
  - apply eat_sound in H. destruct H as [c [t [R [P K]]]].
    eexists. split; [econstructor; eassumption | exact K].
  - apply eat_sound in H. destruct H as [c [t [R [P K]]]].
    eexists. split; [econstructor; eassumption | exact K].
  - destruct (at_bol f st) eqn:B; [|discriminate].
    exists st. split; [constructor; exact B | exact H].
  - destruct (at_eol f st) eqn:B; [|discriminate].
    exists st. split; [constructor; exact B | exact H].
  - apply IH1 in H. destruct H as [st1 [S1 H]].
    apply IH2 in H. destruct H as [st2 [S2 H]].
    exists st2. split; [econstructor; eassumption | exact H].
  - destruct (run f r1 st k) as [x|] eqn:E.
    + injection H as <-. apply IH1 in E. destruct E as [st1 [S1 K]].
      exists st1. split; [apply steps_Alt_l; exact S1 | exact K].
    + apply IH2 in H. destruct H as [st1 [S1 K]].
      exists st1. split; [apply steps_Alt_r; exact S1 | exact K].
  - eapply star_loop_sound; [exact IH1 | exact H].
  - apply IH1 in H. destruct H as [st1 [S1 K]].
    eexists. split; [constructor; exact S1 | exact K].
  - destruct (run f r1 st Some) as [st1|] eqn:E; [|discriminate].
    apply IH1 in E. destruct E as [st1' [S1 E]]. injection E as ->.
    eexists. split; [constructor; exact S1 | exact H].
Qed.

(** A match only moves forward in the text. *)
Lemma steps_suffix (f : flags) (r : regex) st st1 :
  steps f r st st1 -> exists d, rest st = d ++ rest st1.
Proof.
  induction 1 as [st | d st c t R P | st c t R P | negated items st c t R P
                  | st B | st B | r1 r2 st st1 st2 S1 [d1 E1] S2 [d2 E2]
                  | r1 r2 st st1 S1 IH | r1 r2 st st1 S1 IH | greedy r st
                  | greedy r st st1 st2 S1 [d1 E1] L S2 [d2 E2]
                  | name r st st1 S1 IH | r st st1 S1 IH];
    try (exists []; reflexivity); try (exists [c]; exact R); try exact IH.
  - exists (d1 ++ d2). rewrite E1, E2, app_assoc. reflexivity.
  - exists (d1 ++ d2). rewrite E1, E2, app_assoc. reflexivity.
Qed.

Lemma consumed_app st st1 (d : pystr) :
  rest st = d ++ rest st1 -> consumed st st1 = d.
Proof.
  intros E. unfold consumed. rewrite E, length_app.
  replace (length d + length (rest st1) - length (rest st1)) with (length d) by lia.
  rewrite firstn_app, firstn_all, Nat.sub_diag. simpl. apply app_nil_r.
Qed.

(** A pattern leaves the groups it does not define as they were. *)
Lemma steps_caps (f : flags) (name : string) (r : regex) st st1 :
  steps f r st st1 -> ~ In name (group_names r) ->
  lookup name (caps st1) = lookup name (caps st).
Proof.
  induction 1 as [st | d st c t R P | st c t R P | negated items st c t R P
                  | st B | st B | r1 r2 st st1 st2 S1 IH1 S2 IH2
                  | r1 r2 st st1 S1 IH | r1 r2 st st1 S1 IH | greedy r st
                  | greedy r st st1 st2 S1 IH1 L S2 IH2
                  | name0 r st st1 S1 IH | r st st1 S1 IH];
    cbn [group_names]; intros N; try reflexivity.
  - rewrite IH2, IH1; [reflexivity | |]; intros I; apply N, in_or_app; auto.
  - apply IH. intros I. apply N, in_or_app. auto.
  - apply IH. intros I. apply N, in_or_app. auto.
  - rewrite IH2, IH1; [reflexivity | exact N | exact N].
  - cbn [set_cap caps lookup]. destruct (String.eqb name0 name) eqn:E.
    + apply String.eqb_eq in E. subst. exfalso. apply N. left. reflexivity.
    + apply IH. intros I. apply N. right. exact I.
  - cbn [with_caps caps]. apply IH. exact N.
Qed.

(* ================================================================== *)
(** * Strings *)

Lemma dropWhile_split (p : ascii -> bool) (s : pystr) :
  exists w, s = w ++ dropWhile p s /\ Forall (fun c => p c = true) w.
Proof.
  induction s as [|c t [w [E F]]]; simpl.
  - exists []. split; [reflexivity | constructor].
  - destruct (p c) eqn:P.
    + exists (c :: w). split; [simpl; congruence | constructor; assumption].
    + exists []. split; [reflexivity | constructor].
Qed.

Lemma dropWhile_head (p : ascii -> bool) (s : pystr) c t :
  dropWhile p s = c :: t -> p c = false.
Proof.
  induction s as [|d s IH]; simpl; [discriminate|].
  destruct (p d) eqn:P; [exact IH|].
  intros E. injection E as -> _. exact P.
Qed.

Lemma dropWhile_id (p : ascii -> bool) (s : pystr) :
  match s with [] => True | c :: _ => p c = false end -> dropWhile p s = s.
Proof. destruct s as [|c t]; simpl; [reflexivity|]. intros ->. reflexivity. Qed.

Lemma In_dropWhile (p : ascii -> bool) (s : pystr) c :
  In c (dropWhile p s) -> In c s.
Proof.
  destruct (dropWhile_split p s) as [w [E _]]. intros H.
  rewrite E. apply in_or_app. right. exact H.
Qed.

(** [rstrip] removes a suffix made of whitespace. *)
Lemma rstrip_split (s : pystr) :
  exists w, s = rstrip s ++ w /\ Forall (fun c => is_space c = true) w.
Proof.
  unfold rstrip. destruct (dropWhile_split is_space (rev s)) as [w [E F]].
  exists (rev w). split.
  - rewrite <- rev_app_distr, <- E, rev_involutive. reflexivity.
  - apply Forall_rev. exact F.
Qed.

Lemma last_char_app (s : pystr) c : last_char (s ++ [c]) = Some c.
Proof. unfold last_char. rewrite rev_app_distr. reflexivity. Qed.

Lemma last_char_nil (s : pystr) : last_char s = None -> s = [].
Proof.
  unfold last_char. destruct (rev s) eqn:E; [|discriminate].
  intros _. rewrite <- (rev_involutive s), E. reflexivity.
Qed.

Lemma rstrip_last (s : pystr) c : last_char (rstrip s) = Some c -> is_space c = false.
Proof.
  unfold rstrip, last_char. rewrite rev_involutive.
  destruct (dropWhile is_space (rev s)) as [|d r] eqn:E; [discriminate|].
  intros H. injection H as ->. exact (dropWhile_head _ _ _ _ E).
Qed.

Lemma rstrip_id (s : pystr) :
  (forall c, last_char s = Some c -> is_space c = false) -> rstrip s = s.
Proof.
  unfold rstrip, last_char. intros H.
  rewrite dropWhile_id; [apply rev_involutive|].
  destruct (rev s) as [|d r]; [exact I | apply H; reflexivity].
Qed.

Lemma strip_head (s : pystr) : head_not_space (strip s).
Proof.
  unfold strip. destruct (rstrip_split (lstrip s)) as [w [E _]].
  destruct (rstrip (lstrip s)) as [|c t] eqn:R; simpl; [exact I|].
  unfold lstrip in *. simpl in E. exact (dropWhile_head _ _ _ _ E).
Qed.

Lemma strip_last (s : pystr) c : last_char (strip s) = Some c -> is_space c = false.
Proof. apply rstrip_last. Qed.

Lemma strip_id (s : pystr) :
  head_not_space s -> (forall c, last_char s = Some c -> is_space c = false) ->
  strip s = s.
Proof.
  intros Hh Hl. unfold strip, lstrip. rewrite (dropWhile_id is_space s Hh).
  apply rstrip_id. exact Hl.
Qed.

Lemma In_strip (s : pystr) c : In c (strip s) -> In c s.
Proof.
  unfold strip. intros H. apply (In_dropWhile is_space).
  destruct (rstrip_split (lstrip s)) as [w [E _]]. unfold lstrip in E.
  rewrite E. apply in_or_app. left. exact H.
Qed.

(** ** Whitespace-normal strings *)

Lemma tidy_tail_dropWhile (p : ascii -> bool) (s : pystr) :
  tidy s -> tidy (dropWhile p s).
Proof.
  induction s as [|c t IH]; simpl; [trivial|].
  intros [Hc Ht]. destruct (p c); [apply IH; exact Ht | split; assumption].
Qed.

Lemma head_not_space_prefix (x y : pystr) :
  head_not_space (x ++ y) -> head_not_space x.
Proof. destruct x; simpl; trivial. Qed.

Lemma tidy_prefix (x y : pystr) : tidy (x ++ y) -> tidy x.
Proof.
  induction x as [|c x IH]; simpl; [trivial|].
  intros [Hc Ht]. split; [|apply IH; exact Ht].
  intros Hs. destruct (Hc Hs) as [E Hh]. split; [exact E|].
  exact (head_not_space_prefix _ _ Hh).
Qed.

Lemma tidy_snoc (x : pystr) c : tidy x -> is_space c = false -> tidy (x ++ [c]).
Proof.
  intros Hx Hc. induction x as [|d x IH]; simpl.
  - split; [rewrite Hc; discriminate | exact I].
  - destruct Hx as [Hd Hx]. split; [|apply IH; exact Hx].
    intros Hs. destruct (Hd Hs) as [E Hh]. split; [exact E|].
    destruct x; simpl; [exact Hc | exact Hh].
Qed.

Lemma tidy_strip (s : pystr) : tidy s -> tidy (strip s).
Proof.
  intros H. unfold strip.
  destruct (rstrip_split (lstrip s)) as [w [E _]].
  apply (tidy_prefix _ w). rewrite <- E. apply tidy_tail_dropWhile. exact H.
Qed.

Lemma squeeze_head (s : pystr) : head_not_space s -> squeeze true s = squeeze false s.
Proof. destruct s as [|c t]; simpl; [reflexivity|]. intros ->. reflexivity. Qed.

Lemma squeeze_tidy_aux (s : pystr) :
  tidy (squeeze false s) /\ tidy (squeeze true s) /\ head_not_space (squeeze true s).
Proof.
  induction s as [|c t [IHf [IHt IHh]]]; simpl; [repeat split|].
  destruct (is_space c) eqn:Hc; simpl.
  - repeat split; try assumption.
  - rewrite Hc. repeat split; try assumption; discriminate.
Qed.

(** The squeezed text is whitespace-normal. *)
Lemma squeeze_tidy (s : pystr) : tidy (squeeze false s).
Proof. apply squeeze_tidy_aux. Qed.

(** Squeezing leaves a whitespace-normal text as it is. *)
Lemma squeeze_fixed (s : pystr) : tidy s -> squeeze false s = s.
Proof.
  induction s as [|c t IH]; simpl; [reflexivity|].
  intros [Hc Ht]. destruct (is_space c) eqn:Hs.
  - destruct (Hc eq_refl) as [-> Hh].
    rewrite (squeeze_head _ Hh), (IH Ht). reflexivity.
  - rewrite (IH Ht). reflexivity.
Qed.

Lemma squeeze_In (b : bool) (s : pystr) c :
  In c (squeeze b s) -> c = space \/ (In c s /\ is_space c = false).
Proof.
  revert b. induction s as [|d t IH]; simpl; intros b H; [contradiction|].
  destruct (is_space d) eqn:Hd.
  - destruct b; simpl in H.
    + destruct (IH _ H) as [E|[E1 E2]]; auto.
    + destruct H as [E|H]; [auto|]. destruct (IH _ H) as [E|[E1 E2]]; auto.
  - destruct H as [E|H]; [subst; auto|]. destruct (IH _ H) as [E|[E1 E2]]; auto.
Qed.

(* ================================================================== *)
(** * The matcher on the patterns of the extractor *)

Lemma in_set_one (i : item) c : in_set false [i] c = in_item i c.
Proof. unfold in_set. simpl. rewrite orb_false_r. reflexivity. Qed.

Lemma span_dropWhile (p : ascii -> bool) (s : pystr) :
  length s = span p s + length (dropWhile p s).
Proof.
  induction s as [|c t IH]; simpl; [reflexivity|].
  destruct (p c); simpl; lia.
Qed.

(** A greedy star over one class of characters, with nothing after it,
    takes the longest run of that class. *)
Lemma star_class_greedy body (p : ascii -> bool) :
  (forall st k, body st k = eat p st k) ->
  forall n st, length (rest st) <= n ->
  exists st1, star_loop body true Some n st = Some st1
              /\ rest st1 = dropWhile p (rest st) /\ caps st1 = caps st.
Proof.
  intros Hb. induction n as [|n IH]; intros st Hn.
  - destruct st as [pv [|c t] cs]; simpl in *; [|lia].
    eexists; repeat split.
  - simpl. rewrite Hb. unfold eat.
    destruct st as [pv [|c t] cs]; simpl in *.
    + eexists; repeat split.
    + destruct (p c) eqn:Pc.
      * assert (L : (length t <? S (length t)) = true) by (apply Nat.ltb_lt; lia).
        rewrite L.
        destruct (IH {| prev := Some c; rest := t; caps := cs |}) as [st1 [E [R C]]];
          [simpl; lia|].
        rewrite E. exists st1. auto.
      * eexists; repeat split.
Qed.

(** [\s+] at one position: the whole run of whitespace, or no match. *)
Lemma match_at_spaces (f : flags) before (s : pystr) :
  match_at f spaces before s =
  match s with
  | c :: t => if is_space c then Some (S (span is_space t), []) else None
  | [] => None
  end.
Proof.
  unfold match_at, spaces, Plus, Esc. simpl run. unfold eat at 1. simpl rest.
  destruct s as [|c t]; [reflexivity|].
  rewrite in_set_one. simpl in_item. destruct (is_space c); [|reflexivity].
  assert (Hb : forall st k,
             run f (Set_ false [CSpace]) st k = eat is_space st k).
  { intros st k. simpl. unfold eat. destruct (rest st); [reflexivity|].
    rewrite in_set_one. reflexivity. }
  destruct (star_class_greedy _ _ Hb (length t)
              {| prev := Some c; rest := t; caps := [] |})
    as [st1 [E [R C]]].
  - simpl. lia.
  - cbn in E, R, C |- *. rewrite E, R, C. f_equal. f_equal.
    pose proof (span_dropWhile is_space t) as L.
    destruct (length (dropWhile is_space t)); lia.
Qed.

(** [re.sub(r'\s+', ' ', s)] is the squeeze of [s]. *)
Lemma sub_spaces_from (f : flags) (s : pystr) : forall before,
  sub_from f spaces (str " ") before 0 s = squeeze false s
  /\ sub_from f spaces (str " ") before (span is_space s) s = squeeze true s.
Proof.
  induction s as [|c t IH]; intros before.
  - cbn [sub_from span squeeze]. rewrite match_at_spaces. split; reflexivity.
  - assert (E0 : sub_from f spaces (str " ") before 0 (c :: t)
                 = squeeze false (c :: t)).
    { cbn [sub_from squeeze]. rewrite match_at_spaces.
      destruct (is_space c).
      - change (str " " ++ ?x) with (space :: x). f_equal. apply IH.
      - f_equal. apply IH. }
    split; [exact E0|].
    cbn [span]. destruct (is_space c) eqn:Hc.
    + cbn [sub_from squeeze]. rewrite Hc. apply IH.
    + rewrite E0. cbn [squeeze]. rewrite Hc. reflexivity.
Qed.

Lemma sub_spaces (f : flags) (s : pystr) :
  sub f spaces (str " ") s = squeeze false s.
Proof. apply sub_spaces_from. Qed.

(* ================================================================== *)
(** * [_final_clean] *)

(** The text before the punctuation rule: squeezed, then stripped. *)
Lemma final_clean_unfold (text : pystr) :
  _final_clean text =
  let x := strip (squeeze false text) in
  match last_char x with
  | Some c => if negb (contains c (str ".?")) then x ++ str "." else x
  | None => x
  end.
Proof. unfold _final_clean. rewrite sub_spaces. reflexivity. Qed.

Lemma contains_stops c :
  contains c (str ".?") = true -> c = "."%char \/ c = "?"%char.
Proof.
  unfold contains. simpl. rewrite orb_false_r. intros H.
  apply orb_true_iff in H. destruct H as [H|H]; apply Ascii.eqb_eq in H; auto.
Qed.

(** A text that is whitespace-normal, starts and ends with something
    other than whitespace, and ends in a stop is left alone. *)
Lemma final_clean_fixed (y : pystr) :
  tidy y -> head_not_space y -> (y = [] \/ ends_in_stop y) ->
  _final_clean y = y.
Proof.
  intros Ht Hh He. rewrite final_clean_unfold. cbv zeta.
  rewrite (squeeze_fixed _ Ht).
  assert (Hs : strip y = y).
  { apply strip_id; [exact Hh|]. intros c Hc.
    destruct He as [->|[E|E]]; [discriminate| |];
      rewrite E in Hc; injection Hc as <-; reflexivity. }
  rewrite Hs.
  destruct He as [->|[E|E]]; [reflexivity| |]; rewrite E; reflexivity.
Qed.

(** The shape of every cleaned text. *)
Lemma final_clean_shape (text : pystr) :
  tidy (_final_clean text) /\ head_not_space (_final_clean text)
  /\ (_final_clean text = [] \/ ends_in_stop (_final_clean text)).
Proof.
  rewrite final_clean_unfold. cbv zeta.
  set (x := strip (squeeze false text)).
  assert (Tx : tidy x) by (apply tidy_strip, squeeze_tidy).
  assert (Hx : head_not_space x) by apply strip_head.
  destruct (last_char x) as [c|] eqn:L.
  - destruct (contains c (str ".?")) eqn:C; simpl negb; cbv iota.
    + repeat split; try assumption. right.
      destruct (contains_stops _ C) as [->| ->]; [left | right]; exact L.
    + assert (Sx : forall d, last_char x = Some d -> is_space d = false)
        by (intros d; apply strip_last).
      repeat split.
      * apply tidy_snoc; [exact Tx | reflexivity].
      * destruct x; [discriminate L | exact Hx].
      * right. left. apply last_char_app.
  - rewrite (last_char_nil _ L). repeat split. left. reflexivity.
Qed.

(* ================================================================== *)
(** * [_clean_text] *)

(** A substitution only adds characters of the replacement. *)
Lemma sub_from_In (f : flags) (r : regex) (repl s : pystr) c :
  forall before skip,
  In c (sub_from f r repl before skip s) -> In c repl \/ In c s.
Proof.
  induction s as [|d t IH]; intros before skip H.
  - cbn [sub_from] in H. destruct skip; [|contradiction].
    destruct (match_at f r before []); [auto | contradiction].
  - cbn [sub_from] in H. destruct skip as [|n].
    + destruct (match_at f r before (d :: t)) as [[[|n] cs]|].
      * apply in_app_or in H. destruct H as [H|[H|H]]; [auto |subst; simpl; auto|].
        destruct (IH _ _ H); simpl; auto.
      * apply in_app_or in H. destruct H as [H|H]; [auto|].
        destruct (IH _ _ H); simpl; auto.
      * destruct H as [H|H]; [subst; simpl; auto|].
        destruct (IH _ _ H); simpl; auto.
    + destruct (IH _ _ H); simpl; auto.
Qed.

Lemma sub_In (f : flags) (r : regex) (repl s : pystr) c :
  In c (sub f r repl s) -> In c repl \/ In c s.
Proof. apply sub_from_In. Qed.

(** A pattern that starts with a newline matches nowhere in a text
    without newlines. *)
Lemma match_at_newline_first (r : regex) before (s : pystr) :
  ~ In newline s -> match_at no_flags (Seq (Lit newline) r) before s = None.
Proof.
  intros H. unfold match_at. cbn [run]. unfold eat. cbn [rest].
  destruct s as [|c t]; [reflexivity|].
  unfold lit_ok. cbn [IGNORECASE no_flags].
  destruct (Ascii.eqb c newline) eqn:E; [|reflexivity].
  apply Ascii.eqb_eq in E. subst. exfalso. apply H. simpl. auto.
Qed.

Lemma sub_from_newline_first (r : regex) (repl s : pystr) : forall before,
  ~ In newline s -> sub_from no_flags (Seq (Lit newline) r) repl before 0 s = s.
Proof.
  induction s as [|c t IH]; intros before H; cbn [sub_from];
    rewrite (match_at_newline_first _ _ _ H); [reflexivity|].
  f_equal. apply IH. intros N. apply H. simpl. auto.
Qed.

(** After the whitespace rule a text has no newline left, and none of the
    later rules brings one back. *)
Lemma clean_text_no_newline (text : pystr) : ~ In newline (_clean_text text).
Proof.
  unfold _clean_text. intros H. apply In_strip in H.
  apply sub_In in H. destruct H as [[]|H].
  apply sub_In in H. destruct H as [H|H];
    [simpl in H; intuition discriminate|].
  apply sub_In in H. destruct H as [H|H];
    [simpl in H; intuition discriminate|].
  set (squeezed := sub no_flags spaces (str " ") _) in H.
  assert (N : ~ In newline squeezed).
  { unfold squeezed. rewrite sub_spaces. intros N.
    apply squeeze_In in N. destruct N as [N|[_ N]]; discriminate. }
  unfold blank_lines in H. cbn [Cat fold_right] in H.
  unfold sub in H. rewrite (sub_from_newline_first _ _ _ None N) in H.
  exact (N H).
Qed.

(* ================================================================== *)
(** * The patterns on a text without newlines *)

(** Every pattern starts with [(?:^|\n)], which fails after a character
    other than a newline and in front of one. *)
Lemma run_line_start_fail (r : regex) c cs (s : pystr) k :
  c <> newline -> ~ In newline s ->
  run re_MULTILINE_DOTALL (Seq line_start r)
      {| prev := Some c; rest := s; caps := cs |} k = None.
Proof.
  intros Hc Hs. cbn [run line_start]. unfold at_bol, eat. cbn [prev rest].
  assert (E : Ascii.eqb c newline = false) by (apply Ascii.eqb_neq; exact Hc).
  rewrite E, andb_false_r.
  destruct s as [|d t]; [reflexivity|].
  unfold lit_ok. cbn [IGNORECASE re_MULTILINE_DOTALL].
  destruct (Ascii.eqb d newline) eqn:D; [|reflexivity].
  apply Ascii.eqb_eq in D. subst. exfalso. apply Hs. simpl. auto.
Qed.

Lemma finditer_from_line_start (r : regex) (s : pystr) : forall c skip,
  c <> newline -> ~ In newline s ->
  finditer_from re_MULTILINE_DOTALL (Seq line_start r) (Some c) skip s = [].
Proof.
  induction s as [|d t IH]; intros c skip Hc Hs; cbn [finditer_from].
  - destruct skip; [|reflexivity].
    unfold match_at. rewrite run_line_start_fail by assumption. reflexivity.
  - assert (Hd : d <> newline) by (intros ->; apply Hs; simpl; auto).
    assert (Ht : ~ In newline t) by (intros N; apply Hs; simpl; auto).
    destruct skip as [|n]; [|apply IH; assumption].
    unfold match_at. rewrite run_line_start_fail by assumption.
    apply IH; assumption.
Qed.

(** On a text without newlines a pattern can only match at the start. *)
Lemma finditer_line_start (r : regex) (s : pystr) :
  ~ In newline s ->
  finditer re_MULTILINE_DOTALL (Seq line_start r) s =
  match match_at re_MULTILINE_DOTALL (Seq line_start r) None s with
  | Some (_, cs) => [mk_match (Seq line_start r) cs]
  | None => []
  end.
Proof.
  intros Hs. unfold finditer. destruct s as [|d t]; cbn [finditer_from].
  - reflexivity.
  - assert (Hd : d <> newline) by (intros ->; apply Hs; simpl; auto).
    assert (Ht : ~ In newline t) by (intros N; apply Hs; simpl; auto).
    destruct (match_at _ _ None (d :: t)) as [[n cs]|];
      rewrite finditer_from_line_start by assumption; reflexivity.
Qed.

Lemma standard_first c (t : pystr) :
  Ascii.eqb c newline = false -> starts_standard c = false ->
  match_at re_MULTILINE_DOTALL standard_pattern None (c :: t) = None.
Proof. unfold starts_standard, standard_pattern. first_char_fails. Qed.

Lemma numbered_first c (t : pystr) :
  Ascii.eqb c newline = false -> starts_numbered c = false ->
  match_at re_MULTILINE_DOTALL numbered_pattern None (c :: t) = None.
Proof.
  unfold starts_numbered, numbered_pattern. intros Hn Hc. unfold match_at.
  cbn [run Cat fold_right line_start digits Plus Esc].
  unfold at_bol; cbn [prev]; cbn [run]; unfold eat; cbn [rest].
  rewrite in_set_one. cbn [in_item]. rewrite Hc.
  unfold lit_ok. cbn [IGNORECASE re_MULTILINE_DOTALL]. rewrite Hn. reflexivity.
Qed.

Lemma bracketed_first c (t : pystr) :
  Ascii.eqb c newline = false -> starts_bracketed c = false ->
  match_at re_MULTILINE_DOTALL bracketed_pattern None (c :: t) = None.
Proof. unfold starts_bracketed, bracketed_pattern. first_char_fails. Qed.

Lemma problem_first c (t : pystr) :
  Ascii.eqb c newline = false -> starts_problem c = false ->
  match_at re_MULTILINE_DOTALL problem_pattern None (c :: t) = None.
Proof.
  unfold starts_problem, problem_pattern. intros Hn Hc.
  apply orb_false_iff in Hc. destruct Hc as [HP HE]. revert Hn HP.
  unfold match_at;
  cbn [run Cat fold_right line_start Str map str list_ascii_of_string];
  unfold at_bol; cbn [prev]; cbn [run]; unfold eat; cbn [rest];
  unfold lit_ok; cbn [IGNORECASE re_MULTILINE_DOTALL].
  intros Hn HP. rewrite HP, HE, Hn. reflexivity.
Qed.

(** No pattern matches the empty text. *)
Lemma patterns_empty (pattern : regex) :
  In pattern PATTERNS -> match_at re_MULTILINE_DOTALL pattern None [] = None.
Proof.
  intros H. repeat (destruct H as [<-|H]; [reflexivity|]). destruct H.
Qed.

(** The four first characters exclude one another. *)
Lemma starts_exclusive c :
  (if starts_standard c then 1 else 0) + (if starts_numbered c then 1 else 0)
  + (if starts_bracketed c then 1 else 0) + (if starts_problem c then 1 else 0) <= 1.
Proof.
  unfold starts_standard, starts_bracketed, starts_problem.
  destruct (Ascii.eqb c "Q") eqn:EQ;
    [apply Ascii.eqb_eq in EQ; subst; simpl; lia|].
  destruct (Ascii.eqb c "[") eqn:EB;
    [apply Ascii.eqb_eq in EB; subst; simpl; lia|].
  destruct (Ascii.eqb c "P") eqn:EP;
    [apply Ascii.eqb_eq in EP; subst; simpl; lia|].
  destruct (Ascii.eqb c "E") eqn:EE;
    [apply Ascii.eqb_eq in EE; subst; simpl; lia|].
  simpl. destruct (starts_numbered c); lia.
Qed.

Lemma finditer_at_most_one (pattern : regex) (s : pystr) :
  In pattern PATTERNS -> ~ In newline s ->
  length (finditer re_MULTILINE_DOTALL pattern s) <= 1.
Proof.
  intros H Hs.
  assert (E : exists r, pattern = Seq line_start r).
  { repeat (destruct H as [<-|H]; [eexists; reflexivity|]). destruct H. }
  destruct E as [r ->]. rewrite finditer_line_start by exact Hs.
  destruct (match_at _ _ None s) as [[n cs]|]; simpl; lia.
Qed.

Lemma finditer_first (pattern : regex) (starts : ascii -> bool) (s : pystr) :
  In pattern PATTERNS -> ~ In newline s ->
  (forall c t, Ascii.eqb c newline = false -> starts c = false ->
               match_at re_MULTILINE_DOTALL pattern None (c :: t) = None) ->
  length (finditer re_MULTILINE_DOTALL pattern s)
  <= match s with c :: _ => if starts c then 1 else 0 | [] => 0 end.
Proof.
  intros H Hs Hfirst.
  pose proof (finditer_at_most_one pattern s H Hs) as L1.
  pose proof (patterns_empty pattern H) as He.
  assert (E : exists r, pattern = Seq line_start r).
  { repeat (destruct H as [<-|H]; [eexists; reflexivity|]). destruct H. }
  destruct E as [r ->]. rewrite finditer_line_start in * by exact Hs.
  destruct s as [|c t].
  - rewrite He. simpl. lia.
  - destruct (starts c) eqn:S; [exact L1|].
    rewrite Hfirst; [simpl; lia | | exact S].
    apply Ascii.eqb_neq. intros ->. apply Hs. simpl. auto.
Qed.

(** On a text without newlines the four patterns have at most one match
    between them. *)
Lemma patterns_at_most_one (s : pystr) :
  ~ In newline s ->
  length (finditer re_MULTILINE_DOTALL standard_pattern s)
  + length (finditer re_MULTILINE_DOTALL numbered_pattern s)
  + length (finditer re_MULTILINE_DOTALL bracketed_pattern s)
  + length (finditer re_MULTILINE_DOTALL problem_pattern s) <= 1.
Proof.
  intros Hs.
  pose proof (finditer_first standard_pattern starts_standard s
                (or_introl eq_refl) Hs standard_first) as H1.
  pose proof (finditer_first numbered_pattern starts_numbered s
                (or_intror (or_introl eq_refl)) Hs numbered_first) as H2.
  pose proof (finditer_first bracketed_pattern starts_bracketed s
                (or_intror (or_intror (or_introl eq_refl))) Hs bracketed_first) as H3.
  pose proof (finditer_first problem_pattern starts_problem s
                (or_intror (or_intror (or_intror (or_introl eq_refl)))) Hs
                problem_first) as H4.
  destruct s as [|c t]; [lia|].
  pose proof (starts_exclusive c). lia.
Qed.

(* ================================================================== *)
(** * The loops of [_extract_with_confidence] *)

Lemma for_each_invariant {A S : Type} (body : S -> A -> result S)
    (I : S -> Prop) (l : list A) :
  (forall s a s', In a l -> I s -> body s a = Ok s' -> I s') ->
  forall s s', I s -> for_each body l s = Ok s' -> I s'.
Proof.
  induction l as [|a l IH]; intros Hstep s s' Hs H; simpl in H.
  - injection H as <-. exact Hs.
  - destruct (body s a) as [s1|e] eqn:B; simpl in H; [|discriminate].
    apply (IH (fun s0 a0 s0' Ha => Hstep s0 a0 s0' (or_intror Ha)) s1 s');
      [|exact H].
    apply (Hstep s a s1); [left; reflexivity | exact Hs | exact B].
Qed.

(** One turn of the inner loop either leaves the state as it is or accepts
    the candidate built from the match. *)
Lemma match_body_cases (st st' : loop_state) (m : Match) :
  match_body st m = Ok st' ->
  st' = st
  \/ exists q, st' = (fst st ++ [q], question_id q :: snd st)
               /\ seen (question_id q) (snd st) = false
               /\ candidate m q.
Proof.
  unfold match_body, candidate. destruct st as [question_matches seen_questions].
  destruct (group m "id") as [[s_id|]|e] eqn:Gid; simpl; try discriminate.
  destruct (py_int s_id) as [q_id|e] eqn:Pid; simpl; try discriminate.
  destruct (group m "text") as [[s_text|]|e] eqn:Gtext; simpl; try discriminate.
  destruct (seen q_id seen_questions) eqn:Seen.
  - intros H. injection H as <-. left. reflexivity.
  - destruct (_calculate_confidence (strip s_text) m) as [c|e] eqn:Conf; simpl;
      try discriminate.
    destruct (0.5 <? c)%float eqn:Thr; intros H; injection H as <-.
    + right.
      exists {| question_id := q_id; question_text := strip s_text;
                confidence := c |}.
      simpl. repeat split; try assumption; eexists; split; eauto.
    + left. reflexivity.
Qed.

(** A match whose id has been accepted is skipped. *)
Lemma match_body_seen (st st' : loop_state) (m : Match) s_id q_id :
  group m "id" = Ok (Some s_id) -> py_int s_id = Ok q_id ->
  seen q_id (snd st) = true ->
  match_body st m = Ok st' -> st' = st.
Proof.
  intros Gid Pid Seen. unfold match_body. destruct st as [qs sn].
  rewrite Gid. simpl. rewrite Pid. simpl.
  destruct (group m "text") as [[s_text|]|e]; simpl; try discriminate.
  simpl in Seen. rewrite Seen. intros H. injection H as <-. reflexivity.
Qed.

Lemma seen_In q_id (l : list Z) : seen q_id l = true <-> In q_id l.
Proof.
  unfold seen. rewrite existsb_exists. split.
  - intros [x [Hx E]]. apply Z.eqb_eq in E. subst. exact Hx.
  - intros H. exists q_id. split; [exact H | apply Z.eqb_refl].
Qed.

Lemma well_formed_step (st st' : loop_state) (m : Match) :
  well_formed st -> match_body st m = Ok st' -> well_formed st'.
Proof.
  intros [Hnd Hseen] H. destruct (match_body_cases _ _ _ H) as [->|[q [-> [Hq _]]]].
  - split; assumption.
  - unfold well_formed. simpl. split.
    + rewrite map_app. simpl.
      apply Permutation_NoDup with (l := question_id q :: map question_id (fst st)).
      * apply Permutation_cons_append.
      * constructor; [|exact Hnd].
        intros Hin. apply Hseen in Hin. apply seen_In in Hin.
        rewrite Hin in Hq. discriminate.
    + intros x Hx. rewrite map_app in Hx. apply in_app_or in Hx.
      simpl in Hx. destruct Hx as [Hx|[Hx|[]]]; [right; auto | left; exact Hx].
Qed.

Lemma match_body_length (ms : list Match) : forall st st',
  for_each match_body ms st = Ok st' ->
  length (fst st') <= length (fst st) + length ms.
Proof.
  induction ms as [|m ms IH]; intros st st' H; simpl in H.
  - injection H as <-. lia.
  - destruct (match_body st m) as [st1|e] eqn:B; simpl in H; [|discriminate].
    apply IH in H. simpl.
    destruct (match_body_cases _ _ _ B) as [->|[q [-> _]]]; [lia|].
    simpl in H. rewrite length_app in H. simpl in H. lia.
Qed.

Lemma well_formed_loop (ms : list Match) (st st' : loop_state) :
  well_formed st -> for_each match_body ms st = Ok st' -> well_formed st'.
Proof.
  apply for_each_invariant. intros s a s' _. apply well_formed_step.
Qed.

(** The state after the four patterns. *)
Lemma extract_unfold (text : pystr) (questions : list QuestionMatch) :
  _extract_with_confidence text = Ok questions ->
  exists st, for_each (pattern_body text) PATTERNS ([], []) = Ok st
             /\ questions = sorted question_id (fst st).
Proof.
  unfold _extract_with_confidence.
  destruct (for_each (pattern_body text) PATTERNS ([], [])) as [st|e];
    simpl; [|discriminate].
  intros H. injection H as <-. exists st. split; reflexivity.
Qed.

Lemma well_formed_extract (text : pystr) (st : loop_state) :
  for_each (pattern_body text) PATTERNS ([], []) = Ok st -> well_formed st.
Proof.
  apply for_each_invariant.
  - intros s pattern s' _. unfold pattern_body. apply well_formed_loop.
  - split; [constructor | intros x []].
Qed.

(** Every accepted candidate was built from a match of one of the
    patterns and passed the threshold. *)
Lemma candidates_extract (text : pystr) (st : loop_state) :
  for_each (pattern_body text) PATTERNS ([], []) = Ok st ->
  Forall (fun q => exists pattern m,
            In pattern PATTERNS
            /\ In m (finditer re_MULTILINE_DOTALL pattern text)
            /\ candidate m q) (fst st).
Proof.
  set (I := fun s : loop_state =>
              Forall (fun q => exists pattern m,
                        In pattern PATTERNS
                        /\ In m (finditer re_MULTILINE_DOTALL pattern text)
                        /\ candidate m q) (fst s)).
  apply (for_each_invariant (pattern_body text) I); [|constructor].
  intros s pattern s' Hp Hs. unfold pattern_body.
  apply (for_each_invariant match_body I); [|exact Hs].
  intros s1 m s1' Hm Hs1 B.
  destruct (match_body_cases _ _ _ B) as [->|[q [-> [_ Hq]]]]; [exact Hs1|].
  unfold I. simpl. apply Forall_app. split; [exact Hs1|].
  constructor; [|constructor]. exists pattern, m. auto.
Qed.

(* ================================================================== *)
(** * [sorted] and [_post_process_questions] *)

Section SortedFacts.
Variable A : Type.
Variable key : A -> Z.

Lemma insert_by_perm (x : A) (l : list A) : Permutation (insert_by key x l) (x :: l).
Proof.
  induction l as [|y l IH]; simpl; [reflexivity|].
  destruct (key x <=? key y)%Z; [reflexivity|].
  rewrite IH. apply perm_swap.
Qed.

Lemma sorted_perm (l : list A) : Permutation (sorted key l) l.
Proof.
  induction l as [|x l IH]; simpl; [reflexivity|].
  rewrite insert_by_perm. constructor. exact IH.
Qed.

Lemma insert_by_increasing (x : A) (l : list A) :
  StronglySorted Z.lt (map key l) -> ~ In (key x) (map key l) ->
  StronglySorted Z.lt (map key (insert_by key x l)).
Proof.
  induction l as [|y l IH]; simpl; intros Hs Hx.
  - constructor; constructor.
  - inversion Hs as [|? ? Hs' Hall]; subst.
    destruct (key x <=? key y)%Z eqn:E; simpl.
    + apply Z.leb_le in E.
      assert (key x < key y)%Z by (assert (key y <> key x) by tauto; lia).
      constructor; [exact Hs|]. constructor; [assumption|].
      eapply Forall_impl; [|exact Hall]. simpl. intros; lia.
    + apply Z.leb_gt in E. constructor.
      * apply IH; [exact Hs' | tauto].
      * apply Forall_forall. intros k Hk.
        apply (Permutation_in _ (Permutation_map key (insert_by_perm x l))) in Hk.
        simpl in Hk. destruct Hk as [<-|Hk]; [exact E|].
        rewrite Forall_forall in Hall. apply Hall. exact Hk.
Qed.

(** Sorting distinct keys gives strictly increasing keys. *)
Lemma sorted_increasing (l : list A) :
  NoDup (map key l) -> StronglySorted Z.lt (map key (sorted key l)).
Proof.
  induction l as [|x l IH]; simpl; intros Hnd; [constructor|].
  inversion Hnd as [|? ? Hx Hnd']; subst.
  apply insert_by_increasing; [apply IH; exact Hnd'|].
  intros Hin. apply Hx.
  apply (Permutation_in _ (Permutation_map key (sorted_perm l))). exact Hin.
Qed.

End SortedFacts.

Lemma increasing_NoDup (l : list Z) : StronglySorted Z.lt l -> NoDup l.
Proof.
  induction 1 as [|x l Hs IH Hall]; constructor; [|exact IH].
  intros Hin. rewrite Forall_forall in Hall. specialize (Hall _ Hin). lia.
Qed.

(** Every record comes from a candidate, with its id and its cleaned
    text. *)
Lemma post_process_In (matches : list QuestionMatch) (d : question_dict) :
  In d (_post_process_questions matches) ->
  exists q, In q matches /\ dict_question_id d = question_id q
            /\ dict_question d = _final_clean (question_text q)
            /\ dict_question d <> [].
Proof.
  induction matches as [|m matches IH]; simpl; [contradiction|].
  destruct (_final_clean (question_text m)) as [|c t] eqn:E.
  - intros H. destruct (IH H) as [q [Hq R]]. exists q. auto.
  - intros [<-|H].
    + exists m. simpl. repeat split; auto. discriminate.
    + destruct (IH H) as [q [Hq R]]. exists q. auto.
Qed.

Lemma post_process_length (matches : list QuestionMatch) :
  length (_post_process_questions matches) <= length matches.
Proof.
  induction matches as [|m matches IH]; simpl; [lia|].
  destruct (_final_clean (question_text m)); simpl; lia.
Qed.

Lemma post_process_increasing (matches : list QuestionMatch) :
  StronglySorted Z.lt (map question_id matches) ->
  StronglySorted Z.lt (map dict_question_id (_post_process_questions matches)).
Proof.
  induction matches as [|m matches IH]; simpl; intros Hs; [constructor|].
  inversion Hs as [|? ? Hs' Hall]; subst.
  destruct (_final_clean (question_text m)) as [|c t]; [apply IH; exact Hs'|].
  simpl. constructor; [apply IH; exact Hs'|].
  apply Forall_forall. intros k Hk. apply in_map_iff in Hk.
  destruct Hk as [d [<- Hd]]. apply post_process_In in Hd.
  destruct Hd as [q [Hq [-> _]]]. rewrite Forall_forall in Hall.
  apply Hall. apply in_map. exact Hq.
Qed.

(* ================================================================== *)
(** * [_calculate_confidence] *)

(** With a [marker] group to read, the score is the capped product. *)
Lemma confidence_value (text : pystr) (m : Match) :
  has_group m "marker" = true ->
  _calculate_confidence text m = Ok (confidence_formula text m).
Proof.
  intros Hg. unfold _calculate_confidence, confidence_formula, f_len, f_marker,
    f_qmark, marker_non_empty, group. rewrite Hg. cbn [bind].
  destruct (length text <? 10); [|destruct (500 <? length text)];
    destruct (truthy (lookup "marker" (captured m)));
    destruct (contains "?" text);
    destruct (is_some (search no_flags capital_start text)); reflexivity.
Qed.

Lemma confidence_range (text : pystr) (m : Match) :
  (0 <=? confidence_formula text m)%float = true
  /\ (confidence_formula text m <=? 1)%float = true.
Proof.
  unfold confidence_formula, f_len, f_marker, f_qmark.
  destruct (length text <? 10); [|destruct (500 <? length text)];
    destruct (marker_non_empty m); destruct (contains "?" text);
    split; reflexivity.
Qed.

(* ================================================================== *)
(** * The extraction on a text without newlines *)

Lemma sorted_length {A : Type} (key : A -> Z) (l : list A) :
  length (sorted key l) = length l.
Proof. apply Permutation_length, sorted_perm. Qed.

Lemma extract_at_most_one (text : pystr) (questions : list QuestionMatch) :
  ~ In newline text -> _extract_with_confidence text = Ok questions ->
  length questions <= 1.
Proof.
  intros Hn H. apply extract_unfold in H. destruct H as [st [H ->]].
  rewrite sorted_length. pose proof (patterns_at_most_one text Hn) as L.
  unfold PATTERNS in H. cbn [for_each] in H. unfold pattern_body in H.
  destruct (for_each match_body (finditer _ standard_pattern text) ([], []))
    as [s1|e] eqn:E1; cbn [bind] in H; [|discriminate].
  destruct (for_each match_body (finditer _ numbered_pattern text) s1)
    as [s2|e] eqn:E2; cbn [bind] in H; [|discriminate].
  destruct (for_each match_body (finditer _ bracketed_pattern text) s2)
    as [s3|e] eqn:E3; cbn [bind] in H; [|discriminate].
  destruct (for_each match_body (finditer _ problem_pattern text) s3)
    as [s4|e] eqn:E4; cbn [bind] in H; [|discriminate].
  injection H as <-.
  apply match_body_length in E1, E2, E3, E4. simpl in E1. lia.
Qed.

(** The accepted ids stay recorded. *)
Lemma seen_stays (ms : list Match) (x : Z) (st st' : loop_state) :
  In x (snd st) -> for_each match_body ms st = Ok st' -> In x (snd st').
Proof.
  apply (for_each_invariant match_body (fun s => In x (snd s))).
  intros s m s' _ Hs B.
  destruct (match_body_cases _ _ _ B) as [->|[q [-> _]]];
    [exact Hs | right; exact Hs].
Qed.

(* ================================================================== *)
(** * The captures of a match, and the exceptions of the extraction *)

Lemma steps_star_set (f : flags) (greedy negated : bool) (items : list item) st st1 :
  steps f (Star greedy (Set_ negated items)) st st1 ->
  exists d, rest st = d ++ rest st1
            /\ forallb (in_set negated items) d = true /\ caps st1 = caps st.
Proof.
  remember (Star greedy (Set_ negated items)) as r eqn:Er. intros H.
  induction H as [st | d st c t R P | st c t R P | negated' items' st c t R P
                  | st B | st B | r1 r2 st st1 st2 S1 IH1 S2 IH2
                  | r1 r2 st st1 S1 IH | r1 r2 st st1 S1 IH | greedy' r st
                  | greedy' r st st1 st2 S1 IH1 L S2 IH2
                  | name r st st1 S1 IH | r st st1 S1 IH];
    try discriminate Er.
  - exists []. auto.
  - injection Er as -> ->. destruct (IH2 eq_refl) as [d [E [F C]]].
    inversion S1 as [| | |? ? ? c t R P| | | | | | | | |]; subst.
    simpl in E, C. exists (c :: d). rewrite R, E. simpl. rewrite P, F. auto.
Qed.

Lemma forallb_pointwise (p q : ascii -> bool) (l : pystr) :
  (forall c, p c = q c) -> forallb p l = forallb q l.
Proof.
  intros E. induction l as [|c l IH]; simpl; [reflexivity|].
  rewrite E, IH. reflexivity.
Qed.

(** [\d+] takes a non-empty run of digits and captures nothing. *)
Lemma steps_digits (f : flags) st st1 :
  steps f digits st st1 ->
  exists d, d <> [] /\ forallb is_digit d = true
            /\ rest st = d ++ rest st1 /\ caps st1 = caps st.
Proof.
  unfold digits, Plus, Esc. intros H.
  inversion H as [| | | | | |? ? ? sta ? S1 S2| | | | | |]; subst.
  inversion S1 as [| | |? ? ? c t R P| | | | | | | | |]; subst.
  apply steps_star_set in S2. destruct S2 as [d [E [F C]]]. simpl in E, C.
  exists (c :: d). split; [discriminate|]. split.
  - simpl. rewrite in_set_one in P. simpl in P. rewrite P. simpl.
    rewrite <- F. apply forallb_pointwise. intros x.
    rewrite in_set_one. reflexivity.
  - rewrite R, E. auto.
Qed.

Lemma steps_Cat_cons (f : flags) (r : regex) (rs : list regex) st st2 :
  steps f (Cat (r :: rs)) st st2 ->
  exists st1, steps f r st st1 /\ steps f (Cat rs) st1 st2.
Proof.
  cbn [Cat fold_right]. intros H.
  inversion H as [| | | | | |? ? ? st1 ? S1 S2| | | | | |]; subst.
  exists st1. auto.
Qed.

Lemma steps_Cat_skip (f : flags) (pre post : list regex) : forall st st2,
  steps f (Cat (pre ++ post)) st st2 -> exists st1, steps f (Cat post) st1 st2.
Proof.
  induction pre as [|r pre IH]; intros st st2 H; [exists st; exact H|].
  apply steps_Cat_cons in H. destruct H as [st1 [_ H]]. exact (IH _ _ H).
Qed.

(** After [(?P<id>\d+)], if the rest of the pattern has no group of that
    name, the match carries a non-empty run of digits as its [id]. *)
Lemma captures_after_id (f : flags) (post : list regex) st st2 :
  steps f (Cat (Group "id" digits :: post)) st st2 ->
  ~ In "id"%string (group_names (Cat post)) ->
  exists d, d <> [] /\ forallb is_digit d = true
            /\ lookup "id" (caps st2) = Some d.
Proof.
  intros H N. apply steps_Cat_cons in H. destruct H as [st1 [G H]].
  inversion G as [| | | | | | | | | | |? ? ? sta S1|]; subst.
  apply steps_digits in S1. destruct S1 as [d [Hd [F [E C]]]].
  exists d. split; [exact Hd|]. split; [exact F|].
  rewrite (steps_caps _ _ _ _ _ H N). cbn [set_cap caps lookup].
  rewrite (consumed_app _ _ _ E). reflexivity.
Qed.

Lemma captures_after_text (f : flags) (post : list regex) st st2 :
  steps f (Cat (text_group :: post)) st st2 ->
  ~ In "text"%string (group_names (Cat post)) ->
  exists t, lookup "text" (caps st2) = Some t.
Proof.
  intros H N. apply steps_Cat_cons in H. destruct H as [st1 [G H]].
  unfold text_group in G.
  inversion G as [| | | | | | | | | | |? ? ? sta S1|]; subst.
  rewrite (steps_caps _ _ _ _ _ H N). cbn [set_cap caps lookup].
  eexists. reflexivity.
Qed.

(** Every match of a pattern has an [id] made of digits and a [text]. *)
Lemma pattern_captures (pattern : regex) st st1 :
  In pattern PATTERNS -> steps re_MULTILINE_DOTALL pattern st st1 ->
  (exists d, d <> [] /\ forallb is_digit d = true
             /\ lookup "id" (caps st1) = Some d)
  /\ (exists t, lookup "text" (caps st1) = Some t).
Proof.
  intros [<-|[<-|[<-|[<-|[]]]]] H; split.
  - apply (steps_Cat_skip _ [_; _; _]) in H. destruct H as [s1 H].
    apply captures_after_id in H; [exact H | no_such_group].
  - apply (steps_Cat_skip _ [_; _; _; _; _]) in H. destruct H as [s1 H].
    apply captures_after_text in H; [exact H | no_such_group].
  - apply (steps_Cat_skip _ [_]) in H. destruct H as [s1 H].
    apply captures_after_id in H; [exact H | no_such_group].
  - apply (steps_Cat_skip _ [_; _; _]) in H. destruct H as [s1 H].
    apply captures_after_text in H; [exact H | no_such_group].
  - apply (steps_Cat_skip _ [_; _; _]) in H. destruct H as [s1 H].
    apply captures_after_id in H; [exact H | no_such_group].
  - apply (steps_Cat_skip _ [_; _; _; _; _; _]) in H. destruct H as [s1 H].
    apply captures_after_text in H; [exact H | no_such_group].
  - apply (steps_Cat_skip _ [_; _; _]) in H. destruct H as [s1 H].
    apply captures_after_id in H; [exact H | no_such_group].
  - apply (steps_Cat_skip _ [_; _; _; _; _]) in H. destruct H as [s1 H].
    apply captures_after_text in H; [exact H | no_such_group].
Qed.

(** Every match [finditer] yields is a match of the pattern somewhere in
    the text. *)
Lemma finditer_from_In (f : flags) (r : regex) (m : Match) (s : pystr) :
  forall before skip,
  In m (finditer_from f r before skip s) ->
  exists before' s' n cs, match_at f r before' s' = Some (n, cs)
                          /\ m = mk_match r cs.
Proof.
  induction s as [|c t IH]; intros before skip H; cbn [finditer_from] in H.
  - destruct skip; [|contradiction].
    destruct (match_at f r before []) as [[n cs]|] eqn:E; [|contradiction].
    destruct H as [<-|[]]. exists before, [], n, cs. auto.
  - destruct skip as [|k]; [|exact (IH _ _ H)].
    destruct (match_at f r before (c :: t)) as [[n cs]|] eqn:E.
    + destruct H as [<-|H]; [|exact (IH _ _ H)].
      exists before, (c :: t), n, cs. auto.
    + exact (IH _ _ H).
Qed.

Lemma match_at_steps (f : flags) (r : regex) before (s : pystr) n cs :
  match_at f r before s = Some (n, cs) ->
  exists st1, steps f r {| prev := before; rest := s; caps := [] |} st1
              /\ caps st1 = cs.
Proof.
  unfold match_at.
  destruct (run f r _ Some) as [st1|] eqn:E; [|discriminate].
  intros H. injection H as _ <-.
  apply run_sound in E. destruct E as [st1' [S E]]. injection E as ->.
  exists st1. auto.
Qed.

(** [int] of a non-empty run of digits does not raise. *)
Lemma py_int_digits (d : pystr) :
  d <> [] -> forallb is_digit d = true -> exists q_id, py_int d = Ok q_id.
Proof.
  intros Hd F. unfold py_int. destruct d as [|c d]; [contradiction|].
  rewrite F. eexists. reflexivity.
Qed.

(** What one turn of the inner loop can do with a match of a pattern:
    with a [marker] group it goes through; without one it goes through
    only if the id has been accepted before, and raises [IndexError]
    otherwise. *)
Lemma match_body_outcome (pattern : regex) (m : Match) (text : pystr)
    (st : loop_state) :
  In pattern PATTERNS -> In m (finditer re_MULTILINE_DOTALL pattern text) ->
  exists s_id q_id,
    group m "id" = Ok (Some s_id) /\ py_int s_id = Ok q_id
    /\ if has_group m "marker" || seen q_id (snd st)
       then exists st', match_body st m = Ok st'
       else match_body st m = Raise IndexError.
Proof.
  intros Hp Hm. apply finditer_from_In in Hm.
  destruct Hm as [before [s' [n [cs [M ->]]]]].
  apply match_at_steps in M. destruct M as [st1 [S <-]].
  destruct (pattern_captures pattern _ _ Hp S) as [[d [Hd [F Lid]]] [t Ltext]].
  destruct (py_int_digits d Hd F) as [q_id Pid].
  assert (Gid : group (mk_match pattern (caps st1)) "id" = Ok (Some d)).
  { unfold group. cbn [captured mk_match]. rewrite Lid.
    destruct Hp as [<-|[<-|[<-|[<-|[]]]]]; reflexivity. }
  assert (Gtext : group (mk_match pattern (caps st1)) "text" = Ok (Some t)).
  { unfold group. cbn [captured mk_match]. rewrite Ltext.
    destruct Hp as [<-|[<-|[<-|[<-|[]]]]]; reflexivity. }
  exists d, q_id. split; [exact Gid|]. split; [exact Pid|].
  unfold match_body. destruct st as [qs sn]. rewrite Gid. cbn [bind].
  rewrite Pid. cbn [bind]. rewrite Gtext. cbn [bind snd].
  destruct (seen q_id sn); [rewrite orb_true_r; eexists; reflexivity|].
  rewrite orb_false_r.
  destruct (has_group (mk_match pattern (caps st1)) "marker") eqn:Hg.
  - rewrite (confidence_value _ _ Hg). cbn [bind].
    destruct (0.5 <? _)%float; eexists; reflexivity.
  - unfold _calculate_confidence, group. rewrite Hg. reflexivity.
Qed.

Lemma for_each_raises {A S : Type} (body : S -> A -> result S) (l : list A) :
  (forall s a e, In a l -> body s a = Raise e -> e = IndexError) ->
  forall s e, for_each body l s = Raise e -> e = IndexError.
Proof.
  induction l as [|a l IH]; intros Hb s e H; simpl in H; [discriminate|].
  destruct (body s a) as [s1|e1] eqn:B; simpl in H.
  - apply (IH (fun s0 a0 e0 Ha => Hb s0 a0 e0 (or_intror Ha)) s1 e H).
  - injection H as <-. apply (Hb s a e1); [left; reflexivity | exact B].
Qed.



Lemma for_each_ok {A S : Type} (body : S -> A -> result S) (l : list A) :
  (forall s a, In a l -> exists s', body s a = Ok s') ->
  forall s, exists s', for_each body l s = Ok s'.
Proof.
  induction l as [|a l IH]; intros Hb s; simpl; [eexists; reflexivity|].
  destruct (Hb s a (or_introl eq_refl)) as [s1 ->]. simpl.
  apply IH. intros s0 a0 Ha. apply Hb. right. exact Ha.
Qed.

(** The loop over the matches of a pattern that defines a [marker] group
    goes through. *)
Lemma pattern_body_ok (pattern : regex) (text : pystr) (st : loop_state) :
  In pattern PATTERNS ->
  (forall cs, has_group (mk_match pattern cs) "marker" = true) ->
  exists st', pattern_body text st pattern = Ok st'.
Proof.
  intros Hp Hg. unfold pattern_body. apply for_each_ok. intros s m Hm.
  destruct (match_body_outcome pattern m text s Hp Hm) as [s_id [q_id [_ [_ O]]]].
  apply finditer_from_In in Hm. destruct Hm as [b [s' [n [cs [_ ->]]]]].
  rewrite Hg in O. exact O.
Qed.

(** On a text without newlines, the extraction raises [IndexError] when
    the numbered pattern matches at the start and returns otherwise. *)
Lemma extract_on_one_line (s : pystr) :
  ~ In newline s ->
  match match_at re_MULTILINE_DOTALL numbered_pattern None s with
  | Some _ => _extract_with_confidence s = Raise IndexError
  | None => exists questions, _extract_with_confidence s = Ok questions
  end.
Proof.
  intros Hn. pose proof (patterns_at_most_one s Hn) as L.
  pose proof (finditer_line_start
                (Cat [Group "id" digits; seps; text_group;
                      Look (Alt (Cat [Lit newline; digits; seps]) Eol)]) s Hn) as F2.
  change (Seq line_start _) with numbered_pattern in F2.
  unfold _extract_with_confidence, PATTERNS. cbn [for_each].
  destruct (match_at re_MULTILINE_DOTALL numbered_pattern None s)
    as [[n cs]|] eqn:M.
  - rewrite F2 in L. cbn [length] in L.
    destruct (finditer re_MULTILINE_DOTALL standard_pattern s) as [|m1 l1] eqn:F1;
      [|simpl in L; lia].
    unfold pattern_body at 1. rewrite F1. cbn [for_each bind].
    unfold pattern_body at 1. rewrite F2. cbn [for_each bind].
    assert (Hm : In (mk_match numbered_pattern cs)
                    (finditer re_MULTILINE_DOTALL numbered_pattern s))
      by (rewrite F2; left; reflexivity).
    destruct (match_body_outcome numbered_pattern _ s ([], [])
                (or_intror (or_introl eq_refl)) Hm) as [s_id [q_id [_ [_ O]]]].
    match type of O with
    | if ?b then _ else _ => change b with false in O
    end.
    rewrite O. reflexivity.
  - destruct (pattern_body_ok standard_pattern s ([], []))
      as [s1 E1]; [simpl; auto | reflexivity|].
    rewrite E1. cbn [bind]. unfold pattern_body at 1. rewrite F2.
    cbn [for_each bind].
    destruct (pattern_body_ok bracketed_pattern s s1)
      as [s3 E3]; [simpl; auto | reflexivity|].
    rewrite E3. cbn [bind].
    destruct (pattern_body_ok problem_pattern s s3)
      as [s4 E4]; [simpl; auto | reflexivity|].
    rewrite E4. cbn [bind]. eexists. reflexivity.
Qed.


(* ================================================================== *)
(** * Properties of the extraction pipeline *)

(** C1, as the code has it: on the input
    "Q1. First question text here Q2. Second question text here" the
    pipeline returns one record, with id 1, whose text runs to the end of
    the input and so contains "Q2. Second question text here": a question
    only starts at the start of a line, and "Q2." is in the middle of one. *)
Theorem boundary_input_one_record :
  extract_questions boundary_input
  = Ok [ {| dict_question_id := 1;
            dict_question :=
              str "First question text here Q2. Second question text here." |} ].
Proof. vm_compute. reflexivity. Qed.

(** C1 as stated fails: the pipeline does not return a record for id 1 and
    a record for id 2 on that input. *)
Lemma boundary_input_not_two_records :
  ~ exists d1 d2, extract_questions boundary_input = Ok [d1; d2]
                  /\ dict_question_id d1 = 1%Z /\ dict_question_id d2 = 2%Z.
Proof.
  intros [d1 [d2 [H _]]]. vm_compute in H. discriminate H.
Qed.

(** C8: on the input "Q.1 What is X? Here is the answer to the question:
    blah. I hope this helps!" the noise is removed before the patterns are
    tried, and the pipeline returns the one record with id 1 and text
    "What is X?". *)
Theorem noise_input_record :
  _clean_text noise_input = str "Q.1 What is X?"
  /\ extract_questions noise_input
     = Ok [ {| dict_question_id := 1; dict_question := str "What is X?" |} ].
Proof. split; vm_compute; reflexivity. Qed.

(** C3, where the code fails: the numbered pattern defines no [marker]
    group, its match is passed to [_calculate_confidence], which reads
    [match.group('marker')], and the extraction of
    "1. What is the capital of France?" ends with [IndexError]. *)
Theorem numbered_input_raises :
  _clean_text numbered_input = numbered_input
  /\ has_group (mk_match numbered_pattern []) "marker" = false
  /\ _extract_with_confidence (_clean_text numbered_input) = Raise IndexError
  /\ extract_questions numbered_input = Raise IndexError.
Proof. repeat split; vm_compute; reflexivity. Qed.

(** C2: the cleaned text has no newline; so each of the four patterns has
    at most one match in it, and the pipeline, when it returns, returns at
    most one record. *)
Theorem clean_text_single_record (text : pystr) :
  ~ In newline (_clean_text text)
  /\ (forall pattern, In pattern PATTERNS ->
        length (finditer re_MULTILINE_DOTALL pattern (_clean_text text)) <= 1)
  /\ (forall records, extract_questions text = Ok records -> length records <= 1).
Proof.
  pose proof (clean_text_no_newline text) as Hn. split; [exact Hn|]. split.
  - intros pattern Hp. apply finditer_at_most_one; assumption.
  - unfold extract_questions. intros records H.
    destruct (_extract_with_confidence (_clean_text text)) as [questions|e] eqn:E;
      cbn [bind] in H; [|discriminate].
    injection H as <-.
    pose proof (extract_at_most_one _ _ Hn E).
    pose proof (post_process_length questions). lia.
Qed.

Lemma clean_text_single_record_witness :
  exists records, extract_questions noise_input = Ok records /\ length records <= 1.
Proof.
  eexists. split; [vm_compute; reflexivity|].
  apply (proj2 (proj2 (clean_text_single_record noise_input))).
  vm_compute. reflexivity.
Defined.

(** C4: the ids of the returned records are strictly increasing, hence
    sorted and pairwise distinct; this holds for every text given to
    [_extract_with_confidence], so also for the cleaned text of the
    pipeline. *)
Theorem record_ids_increasing :
  (forall text questions,
     _extract_with_confidence text = Ok questions ->
     increasing_ids (_post_process_questions questions)
     /\ NoDup (map dict_question_id (_post_process_questions questions)))
  /\ (forall text records,
        extract_questions text = Ok records ->
        increasing_ids records /\ NoDup (map dict_question_id records)).
Proof.
  assert (G : forall text questions,
             _extract_with_confidence text = Ok questions ->
             increasing_ids (_post_process_questions questions)
             /\ NoDup (map dict_question_id (_post_process_questions questions))).
  { intros text questions H. apply extract_unfold in H. destruct H as [st [H ->]].
    apply well_formed_extract in H. destruct H as [Hnd _].
    assert (I : increasing_ids
                  (_post_process_questions (sorted question_id (fst st)))).
    { apply post_process_increasing, sorted_increasing. exact Hnd. }
    split; [exact I | apply increasing_NoDup; exact I]. }
  split; [exact G|]. intros text records H. unfold extract_questions in H.
  destruct (_extract_with_confidence (_clean_text text)) as [questions|e] eqn:E;
    cbn [bind] in H; [|discriminate].
  injection H as <-. exact (G _ _ E).
Qed.

Lemma record_ids_increasing_witness :
  exists questions,
    _extract_with_confidence three_lines_input = Ok questions
    /\ map dict_question_id (_post_process_questions questions) = [1; 3; 12]%Z
    /\ increasing_ids (_post_process_questions questions).
Proof.
  eexists. split; [vm_compute; reflexivity|].
  split; [vm_compute; reflexivity|].
  apply (proj1 record_ids_increasing three_lines_input).
  vm_compute. reflexivity.
Defined.

(** C5: every record has a non-empty text that ends in '.' or '?':
    [_post_process_questions] drops the empty cleaned texts and
    [_final_clean] appends '.' where the text ends in neither. *)
Theorem record_texts_well_ended :
  (forall matches, Forall well_ended (_post_process_questions matches))
  /\ (forall text records, extract_questions text = Ok records -> Forall well_ended records).
Proof.
  assert (G : forall matches, Forall well_ended (_post_process_questions matches)).
  { intros matches. apply Forall_forall. intros d Hd.
    apply post_process_In in Hd. destruct Hd as [q [_ [_ [E Hne]]]].
    split; [exact Hne|]. rewrite E in *.
    destruct (final_clean_shape (question_text q)) as [_ [_ [N|S]]];
      [contradiction | exact S]. }
  split; [exact G|]. intros text records H. unfold extract_questions in H.
  destruct (_extract_with_confidence (_clean_text text)) as [questions|e];
    cbn [bind] in H; [|discriminate].
  injection H as <-. apply G.
Qed.

Lemma record_texts_well_ended_witness :
  Forall well_ended
    [ {| dict_question_id := 1; dict_question := str "What is X?" |} ].
Proof.
  apply (proj2 record_texts_well_ended noise_input). vm_compute. reflexivity.
Defined.

(** The score of C6 where the code computes one: for a match whose pattern
    defines a [marker] group, [_calculate_confidence] returns
    min(1.0, 1.0 * f_len * f_marker * f_qmark); the result lies between 0
    and 1 and depends on the text only through its length and the presence
    of '?', so not on a leading capital letter. *)
Theorem confidence_is_capped_product (text : pystr) (m : Match) :
  has_group m "marker" = true ->
  _calculate_confidence text m = Ok (confidence_formula text m)
  /\ (0 <=? confidence_formula text m)%float = true
  /\ (confidence_formula text m <=? 1)%float = true
  /\ (forall text',
        length text' = length text -> contains "?" text' = contains "?" text ->
        _calculate_confidence text' m = _calculate_confidence text m).
Proof.
  intros Hg. split; [apply confidence_value; exact Hg|].
  split; [apply confidence_range|]. split; [apply confidence_range|].
  intros text' Hl Hq. rewrite !confidence_value by exact Hg.
  unfold confidence_formula, f_len, f_qmark. rewrite Hl, Hq. reflexivity.
Qed.

Lemma confidence_is_capped_product_witness :
  _calculate_confidence (str "What is X?")
    (mk_match standard_pattern [("marker"%string, str "Q")])
  = Ok 1.0%float.
Proof.
  apply (proj1 (confidence_is_capped_product (str "What is X?")
                  (mk_match standard_pattern [("marker"%string, str "Q")])
                  eq_refl)).
Defined.

(** C6, where the code fails: the match of the numbered pattern on
    "1. What is the capital of France?" has no [marker] group to read, and
    [_calculate_confidence] raises [IndexError] instead of returning the
    capped product, in which the marker factor would be 1.0. *)
Theorem confidence_of_numbered_match_raises :
  exists m,
    finditer re_MULTILINE_DOTALL numbered_pattern numbered_input = [m]
    /\ _calculate_confidence (str "What is the capital of France?") m
       = Raise IndexError
    /\ _calculate_confidence (str "What is the capital of France?") m
       <> Ok (confidence_formula (str "What is the capital of France?") m).
Proof.
  eexists. split; [vm_compute; reflexivity|].
  split; [vm_compute; reflexivity|]. vm_compute. discriminate.
Qed.

(** C7: a candidate is accepted only with a score above 0.5, a match whose
    score is not above 0.5 leaves the candidate set as it is, and every
    record of the result comes from an accepted candidate, built from a
    match of one of the patterns. *)
Theorem accepted_above_threshold :
  (forall st m st' s_text c,
     group m "text" = Ok (Some s_text) ->
     _calculate_confidence (strip s_text) m = Ok c ->
     (0.5 <? c)%float = false ->
     match_body st m = Ok st' -> st' = st)
  /\ (forall text questions,
        _extract_with_confidence text = Ok questions ->
        forall d, In d (_post_process_questions questions) ->
        exists q pattern m,
          In q questions
          /\ dict_question_id d = question_id q
          /\ dict_question d = _final_clean (question_text q)
          /\ In pattern PATTERNS
          /\ In m (finditer re_MULTILINE_DOTALL pattern text)
          /\ candidate m q
          /\ (0.5 <? confidence q)%float = true).
Proof.
  split.
  - intros st m st' s_text c Gt Conf Thr B.
    destruct (match_body_cases _ _ _ B) as [E|[q [_ [_ [_ [[s [Gs Ts]] [Cq Tq]]]]]]];
      [exact E|].
    rewrite Gt in Gs. injection Gs as <-. rewrite Ts, Conf in Cq.
    injection Cq as Ec. rewrite <- Ec, Thr in Tq. discriminate.
  - intros text questions H d Hd.
    apply extract_unfold in H. destruct H as [st [H ->]].
    apply candidates_extract in H. rewrite Forall_forall in H.
    apply post_process_In in Hd. destruct Hd as [q [Hq [Hid [Htext _]]]].
    apply (Permutation_in _ (sorted_perm _ question_id (fst st))) in Hq as Hq'.
    destruct (H q Hq') as [pattern [m [Hp [Hm Hc]]]].
    exists q, pattern, m. repeat split; try assumption; apply Hc.
Qed.

Lemma accepted_above_threshold_witness :
  exists q pattern m,
    In q [ {| question_id := 1; question_text := str "What is X?";
              confidence := 1.0%float |} ]
    /\ 1%Z = question_id q
    /\ str "What is X?" = _final_clean (question_text q)
    /\ In pattern PATTERNS
    /\ In m (finditer re_MULTILINE_DOTALL pattern (str "Q.1 What is X?"))
    /\ candidate m q
    /\ (0.5 <? confidence q)%float = true.
Proof.
  apply (proj2 accepted_above_threshold (str "Q.1 What is X?")
           [ {| question_id := 1; question_text := str "What is X?";
                confidence := 1.0%float |} ]
           eq_refl
           {| dict_question_id := 1; dict_question := str "What is X?" |}).
  left. reflexivity.
Defined.

(** C9, as the code has it: a turn of the inner loop either leaves the
    state as it is, so that a match discarded by the threshold is not
    remembered, or accepts the candidate of the match, and then every later
    match with the same id, of this or of a later pattern, is skipped. *)
Theorem accepted_id_blocks_later_matches (st st1 : loop_state) (m1 : Match) :
  match_body st m1 = Ok st1 ->
  st1 = st
  \/ exists q,
       candidate m1 q
       /\ st1 = (fst st ++ [q], question_id q :: snd st)
       /\ forall between st2 m2 s2 st3,
            for_each match_body between st1 = Ok st2 ->
            group m2 "id" = Ok (Some s2) -> py_int s2 = Ok (question_id q) ->
            match_body st2 m2 = Ok st3 -> st3 = st2.
Proof.
  intros B. destruct (match_body_cases _ _ _ B) as [E|[q [E [_ Hc]]]];
    [left; exact E|].
  right. exists q. split; [exact Hc|]. split; [exact E|].
  intros between st2 m2 s2 st3 Hb Gid Pid B2.
  apply (match_body_seen st2 st3 m2 s2 (question_id q) Gid Pid); [|exact B2].
  apply seen_In. apply (seen_stays between _ st1 st2); [|exact Hb].
  rewrite E. left. reflexivity.
Qed.

Lemma accepted_id_blocks_later_matches_witness :
  let m := mk_match bracketed_pattern
             [("text"%string, str "What is the capital of France?");
              ("id"%string, str "1")] in
  let st1 := ([ {| question_id := 1;
                   question_text := str "What is the capital of France?";
                   confidence := 1.0%float |} ], [1%Z]) in
  st1 = ([], [])
  \/ exists q,
       candidate m q
       /\ st1 = (fst ([] : list QuestionMatch, [] : list Z) ++ [q],
                 question_id q :: snd ([] : list QuestionMatch, [] : list Z))
       /\ forall between st2 m2 s2 st3,
            for_each match_body between st1 = Ok st2 ->
            group m2 "id" = Ok (Some s2) -> py_int s2 = Ok (question_id q) ->
            match_body st2 m2 = Ok st3 -> st3 = st2.
Proof.
  exact (accepted_id_blocks_later_matches ([], [])
           ([ {| question_id := 1;
                 question_text := str "What is the capital of France?";
                 confidence := 1.0%float |} ], [1%Z])
           (mk_match bracketed_pattern
              [("text"%string, str "What is the capital of France?");
               ("id"%string, str "1")])
           eq_refl).
Defined.

(** C9 as stated fails: in "[1] Hi" followed on the next line by
    "[1] What is the capital of France?" the bracketed pattern has two
    matches with id 1; the first scores 0.5 and is discarded, and the
    second, later one becomes the accepted candidate. *)
Lemma later_match_accepted_after_discarded_one :
  exists m1 m2 q,
    finditer re_MULTILINE_DOTALL bracketed_pattern repeated_id_input = [m1; m2]
    /\ group m1 "id" = Ok (Some (str "1"))
    /\ group m2 "id" = Ok (Some (str "1"))
    /\ _calculate_confidence (str "Hi") m1 = Ok 0.5%float
    /\ _extract_with_confidence repeated_id_input = Ok [q]
    /\ candidate m2 q
    /\ ~ candidate m1 q.
Proof.
  eexists. eexists. eexists.
  split; [vm_compute; reflexivity|].
  split; [vm_compute; reflexivity|].
  split; [vm_compute; reflexivity|].
  split; [vm_compute; reflexivity|].
  split; [vm_compute; reflexivity|].
  split.
  - unfold candidate. split; [eexists; split; vm_compute; reflexivity|].
    split; [eexists; split; vm_compute; reflexivity|].
    split; vm_compute; reflexivity.
  - intros [_ [[s [G T]] _]]. vm_compute in G. injection G as <-.
    vm_compute in T. discriminate T.
Qed.

(** C10: [_final_clean] is idempotent; its result is whitespace-normal,
    has no whitespace at either end, and is empty or ends in '.' or '?',
    and such a text is left as it is. *)
Theorem final_clean_idempotent (t : pystr) :
  _final_clean (_final_clean t) = _final_clean t
  /\ tidy (_final_clean t) /\ head_not_space (_final_clean t)
  /\ (_final_clean t = [] \/ ends_in_stop (_final_clean t)).
Proof.
  destruct (final_clean_shape t) as [Ht [Hh He]].
  split; [apply final_clean_fixed; assumption|]. auto.
Qed.

(* ================================================================== *)
(** * Further properties of [_clean_text] *)

(** A set matches one character of the set, and nothing else. *)
Lemma match_at_set (f : flags) (negated : bool) (items : list item) before
    (s : pystr) :
  match_at f (Set_ negated items) before s =
  match s with
  | c :: _ => if in_set negated items c then Some (1, []) else None
  | [] => None
  end.
Proof.
  unfold match_at. cbn [run]. unfold eat. cbn [rest caps].
  destruct s as [|c t]; [reflexivity|].
  destruct (in_set negated items c); [|reflexivity].
  cbn [rest caps]. f_equal. f_equal. cbn [length]. lia.
Qed.

(** Deleting the characters of a set leaves the others. *)
Lemma sub_set_In (f : flags) (negated : bool) (items : list item) (s : pystr) c :
  forall before,
  In c (sub_from f (Set_ negated items) [] before 0 s) ->
  In c s /\ in_set negated items c = false.
Proof.
  induction s as [|d t IH]; intros before H; cbn [sub_from] in H;
    rewrite match_at_set in H; [contradiction|].
  destruct (in_set negated items d) eqn:E.
  - cbn [app] in H. destruct (IH _ H) as [I N]. split; [right; exact I | exact N].
  - destruct H as [<-|H]; [split; [left; reflexivity | exact E]|].
    destruct (IH _ H) as [I N]. split; [right; exact I | exact N].
Qed.

(** The only whitespace left in a cleaned text is the space. *)
Lemma clean_text_spaces (text : pystr) c :
  In c (_clean_text text) -> is_space c = true -> c = space.
Proof.
  unfold _clean_text. intros H Hs. apply In_strip in H.
  apply sub_In in H. destruct H as [[]|H].
  apply sub_In in H. destruct H as [H|H].
  { cbn in H. repeat (destruct H as [<-|H]; [try discriminate Hs; reflexivity|]).
    destruct H. }
  apply sub_In in H. destruct H as [H|H].
  { cbn in H. repeat (destruct H as [<-|H]; [discriminate Hs|]). destruct H. }
  set (squeezed := sub no_flags spaces (str " ") _) in H.
  assert (Q : forall d, In d squeezed -> d = space \/ is_space d = false).
  { unfold squeezed. rewrite sub_spaces. intros d Hd.
    apply squeeze_In in Hd. tauto. }
  assert (N : ~ In newline squeezed).
  { intros N. destruct (Q _ N); discriminate. }
  unfold blank_lines in H. cbn [Cat fold_right] in H.
  unfold sub in H. rewrite (sub_from_newline_first _ _ _ None N) in H.
  destruct (Q _ H) as [E|E]; [exact E | rewrite E in Hs; discriminate].
Qed.

(** X4: every character of a cleaned text is a word character, a space or
    one of [. ? , : ; ( ) [ ] -], and the text neither starts nor ends
    with whitespace. *)
Theorem clean_text_alphabet (text : pystr) :
  Forall (fun c => allowed c = true) (_clean_text text)
  /\ head_not_space (_clean_text text)
  /\ (forall c, last_char (_clean_text text) = Some c -> is_space c = false).
Proof.
  split; [|split; [apply strip_head | intros c; apply strip_last]].
  apply Forall_forall. intros c H.
  pose proof (clean_text_spaces text c H) as Hs.
  unfold _clean_text in H. apply In_strip in H.
  unfold sub, unwanted in H. apply sub_set_In in H. destruct H as [_ H].
  unfold in_set in H. cbn [xorb] in H. apply negb_false_iff in H.
  cbn [existsb in_item] in H. unfold allowed, contains. cbn [existsb str list_ascii_of_string].
  destruct (is_word c); [reflexivity|]. cbn [orb] in H |- *.
  destruct (is_space c) eqn:S.
  - rewrite (Hs eq_refl). reflexivity.
  - cbn [orb] in H. destruct (Ascii.eqb c newline) eqn:N.
    + apply Ascii.eqb_eq in N. subst. discriminate S.
    + cbn [orb] in H. rewrite H. apply orb_true_r.
Qed.

(* ================================================================== *)
(** * Further properties of the extraction *)

Lemma length_zero_nil {A : Type} (l : list A) : length l <= 0 -> l = [].
Proof. destruct l; simpl; [reflexivity | lia]. Qed.

(** On a text without newlines that starts with none of the characters a
    pattern needs, nothing matches and the candidate list is empty. *)
Lemma extract_no_start (s : pystr) :
  ~ In newline s ->
  match s with
  | [] => True
  | c :: _ => starts_standard c = false /\ starts_numbered c = false
              /\ starts_bracketed c = false /\ starts_problem c = false
  end ->
  _extract_with_confidence s = Ok [].
Proof.
  intros Hn Hc.
  pose proof (finditer_first standard_pattern starts_standard s
                (or_introl eq_refl) Hn standard_first) as H1.
  pose proof (finditer_first numbered_pattern starts_numbered s
                (or_intror (or_introl eq_refl)) Hn numbered_first) as H2.
  pose proof (finditer_first bracketed_pattern starts_bracketed s
                (or_intror (or_intror (or_introl eq_refl))) Hn bracketed_first) as H3.
  pose proof (finditer_first problem_pattern starts_problem s
                (or_intror (or_intror (or_intror (or_introl eq_refl)))) Hn
                problem_first) as H4.
  assert (E : finditer re_MULTILINE_DOTALL standard_pattern s = []
              /\ finditer re_MULTILINE_DOTALL numbered_pattern s = []
              /\ finditer re_MULTILINE_DOTALL bracketed_pattern s = []
              /\ finditer re_MULTILINE_DOTALL problem_pattern s = []).
  { destruct s as [|c t].
    - repeat split; apply length_zero_nil; assumption.
    - destruct Hc as [C1 [C2 [C3 C4]]]. rewrite C1 in H1. rewrite C2 in H2.
      rewrite C3 in H3. rewrite C4 in H4.
      repeat split; apply length_zero_nil; assumption. }
  destruct E as [E1 [E2 [E3 E4]]].
  unfold _extract_with_confidence, PATTERNS. cbn [for_each]. unfold pattern_body.
  rewrite E1. cbn [for_each bind]. rewrite E2. cbn [for_each bind].
  rewrite E3. cbn [for_each bind]. rewrite E4. reflexivity.
Qed.

(** X5: when the cleaned text is empty or starts with a character other
    than Q, a digit, '[', P or E, [extract_questions] returns the empty
    list and raises nothing, whatever follows in the text. *)
Theorem no_leading_marker_no_questions (text : pystr) :
  match _clean_text text with
  | [] => True
  | c :: _ => starts_standard c = false /\ starts_numbered c = false
              /\ starts_bracketed c = false /\ starts_problem c = false
  end ->
  extract_questions text = Ok [].
Proof.
  intros H. unfold extract_questions. cbv zeta.
  rewrite (extract_no_start _ (clean_text_no_newline text) H). reflexivity.
Qed.

Lemma no_leading_marker_no_questions_witness :
  extract_questions
    (str "Answer all questions." ++ newline :: str "Q1. What is X?")
  = Ok [].
Proof.
  apply no_leading_marker_no_questions. vm_compute. repeat split.
Defined.

(** With a marker group to read, only a weak candidate fails the
    threshold. *)
Lemma confidence_above (text : pystr) (m : Match) :
  (0.5 <? confidence_formula text m)%float = negb (weak_candidate text m).
Proof.
  unfold confidence_formula, weak_candidate, f_len, f_marker, f_qmark.
  destruct (length text <? 10); [|destruct (500 <? length text)];
    destruct (marker_non_empty m); destruct (contains "?" text); reflexivity.
Qed.

(** X6: a score is not above the threshold exactly when the text is
    shorter than 10 characters, the marker capture is empty and the text
    has no question mark; every other candidate passes. *)
Theorem threshold_rejects_only_weak (text : pystr) (m : Match) c :
  _calculate_confidence text m = Ok c ->
  (0.5 <? c)%float = negb (weak_candidate text m).
Proof.
  intros H. destruct (has_group m "marker") eqn:Hg.
  - rewrite (confidence_value _ _ Hg) in H. injection H as <-.
    apply confidence_above.
  - unfold _calculate_confidence, group in H. rewrite Hg in H. discriminate H.
Qed.

Lemma threshold_rejects_only_weak_witness :
  (0.5 <? 0.5)%float
  = negb (weak_candidate (str "Hi")
            (mk_match bracketed_pattern
               [("text"%string, str "Hi"); ("id"%string, str "1")])).
Proof.
  apply (threshold_rejects_only_weak (str "Hi")
           (mk_match bracketed_pattern
              [("text"%string, str "Hi"); ("id"%string, str "1")])
           0.5%float eq_refl).
Defined.

(** ** Matches with an explicit marker *)

Lemma steps_shorter (f : flags) (r : regex) st st1 :
  steps f r st st1 -> length (rest st1) <= length (rest st).
Proof.
  intros H. destruct (steps_suffix _ _ _ _ H) as [d E].
  rewrite E, length_app. lia.
Qed.

(** A pattern that starts with a literal consumes at least a character. *)
Lemma steps_literal_first (f : flags) (d : ascii) (r : regex) st st1 :
  steps f (Seq (Lit d) r) st st1 -> length (rest st1) < length (rest st).
Proof.
  intros H. inversion H as [| | | | | |? ? ? sta ? S1 S2| | | | | |]; subst.
  inversion S1 as [|? ? c t R P| | | | | | | | | | |]; subst.
  apply steps_shorter in S2. cbn [rest] in S2. rewrite R. cbn [length]. lia.
Qed.

(** After a [marker] group whose alternatives all start with a literal,
    the match carries a non-empty marker. *)
Lemma captures_after_marker (f : flags) (d1 d2 : ascii) (r1 r2 : regex)
    (post : list regex) st st2 :
  steps f (Cat (Group "marker" (Alt (Seq (Lit d1) r1) (Seq (Lit d2) r2)) :: post))
        st st2 ->
  ~ In "marker"%string (group_names (Cat post)) ->
  exists d, d <> [] /\ lookup "marker" (caps st2) = Some d.
Proof.
  intros H N. apply steps_Cat_cons in H. destruct H as [st1 [G H]].
  inversion G as [| | | | | | | | | | |? ? ? sta S1|]; subst.
  assert (L : length (rest sta) < length (rest st)).
  { inversion S1 as [| | | | | | |? ? ? ? S|? ? ? ? S| | | |]; subst;
      exact (steps_literal_first _ _ _ _ _ S). }
  destruct (steps_suffix _ _ _ _ S1) as [d E].
  exists d. split.
  - intros ->. simpl in E. rewrite E in L. lia.
  - rewrite (steps_caps _ _ _ _ _ H N). cbn [set_cap caps lookup].
    rewrite (consumed_app _ _ _ E). reflexivity.
Qed.

(** Every match of the standard or of the problem pattern has a non-empty
    marker. *)
Lemma marked_pattern_marker (pattern : regex) st st1 :
  pattern = standard_pattern \/ pattern = problem_pattern ->
  steps re_MULTILINE_DOTALL pattern st st1 ->
  exists d, d <> [] /\ lookup "marker" (caps st1) = Some d.
Proof.
  intros [-> | ->] H.
  - apply (steps_Cat_skip _ [_]) in H. destruct H as [s1 H].
    apply captures_after_marker in H; [exact H | no_such_group].
  - apply (steps_Cat_skip _ [_]) in H. destruct H as [s1 H].
    apply captures_after_marker in H; [exact H | no_such_group].
Qed.



(** ** Which candidate is selected for an id *)

Lemma for_each_app {A S : Type} (body : S -> A -> result S) (l1 l2 : list A) :
  forall s, for_each body (l1 ++ l2) s
            = (s1 <- for_each body l1 s ;; for_each body l2 s1).
Proof.
  induction l1 as [|a l1 IH]; intros s; simpl; [reflexivity|].
  destruct (body s a) as [s1|e]; simpl; [apply IH | reflexivity].
Qed.

(** The two nested loops are one loop over [all_matches]. *)
Lemma loops_flat (text : pystr) (st : loop_state) :
  for_each (pattern_body text) PATTERNS st
  = for_each match_body (all_matches text) st.
Proof.
  unfold all_matches, PATTERNS. cbn [flat_map for_each]. unfold pattern_body.
  rewrite app_nil_r, for_each_app.
  destruct (for_each match_body (finditer _ standard_pattern text) st)
    as [s1|e]; cbn [bind]; [|reflexivity].
  rewrite for_each_app.
  destruct (for_each match_body (finditer _ numbered_pattern text) s1)
    as [s2|e]; cbn [bind]; [|reflexivity].
  rewrite for_each_app.
  destruct (for_each match_body (finditer _ bracketed_pattern text) s2)
    as [s3|e]; cbn [bind]; [|reflexivity].
  destruct (for_each match_body (finditer _ problem_pattern text) s3);
    reflexivity.
Qed.

(** The id of a candidate is fixed by its match. *)
Lemma candidate_id (m : Match) (q q' : QuestionMatch) :
  candidate m q -> candidate m q' -> question_id q = question_id q'.
Proof.
  intros [[s [G P]] _] [[s' [G' P']] _]. rewrite G in G'. injection G' as <-.
  rewrite P in P'. injection P' as E. exact E.
Qed.

(** A match that has a passing candidate leaves its id accepted. *)
Lemma match_body_records (st st1 : loop_state) (m : Match) (q : QuestionMatch) :
  match_body st m = Ok st1 -> candidate m q -> In (question_id q) (snd st1).
Proof.
  intros B [[s [G P]] [[t [Gt T]] [C Thr]]]. revert B.
  unfold match_body. destruct st as [qs sn]. rewrite G. cbn [bind].
  rewrite P. cbn [bind]. rewrite Gt. cbn [bind]. rewrite <- T, C. cbn [bind].
  destruct (seen (question_id q) sn) eqn:Seen.
  - intros H. injection H as <-. apply seen_In. exact Seen.
  - rewrite Thr. intros H. injection H as <-. left. reflexivity.
Qed.

(** A match that has a passing candidate and leaves the state as it is
    had its id accepted before. *)
Lemma match_body_unchanged (st : loop_state) (m : Match) (q : QuestionMatch) :
  match_body st m = Ok st -> candidate m q -> In (question_id q) (snd st).
Proof. intros B C. exact (match_body_records st st m q B C). Qed.

(** The candidates a loop adds: each comes from a match, had an id not
    accepted before the loop, and no earlier match of the loop has a
    passing candidate with that id. *)
Lemma loop_selects_first (ms : list Match) : forall st st',
  for_each match_body ms st = Ok st' ->
  exists added,
    fst st' = fst st ++ added
    /\ forall q, In q added ->
         ~ In (question_id q) (snd st)
         /\ exists ms1 m ms2,
              ms = ms1 ++ m :: ms2 /\ candidate m q
              /\ forall m' q', In m' ms1 -> candidate m' q' ->
                               question_id q' <> question_id q.
Proof.
  induction ms as [|m ms IH]; intros st st' H; simpl in H.
  - injection H as <-. exists []. split; [symmetry; apply app_nil_r|].
    intros q [].
  - destruct (match_body st m) as [st1|e] eqn:B; cbn [bind] in H; [|discriminate].
    destruct (IH _ _ H) as [added [E Hadd]].
    destruct (match_body_cases _ _ _ B) as [->|[q0 [-> [Unseen C0]]]].
    + exists added. split; [exact E|]. intros q Hq.
      destruct (Hadd q Hq) as [Nq [ms1 [m0 [ms2 [-> [Cq First]]]]]].
      split; [exact Nq|]. exists (m :: ms1), m0, ms2.
      split; [reflexivity|]. split; [exact Cq|].
      intros m' q' [<-|Hm'] Cq'; [|exact (First m' q' Hm' Cq')].
      intros Eid. apply Nq. rewrite <- Eid.
      exact (match_body_unchanged _ _ _ B Cq').
    + cbn [fst snd] in E, Hadd. exists (q0 :: added).
      split; [rewrite E, <- app_assoc; reflexivity|].
      intros q [<-|Hq].
      * split; [intros I; apply seen_In in I; rewrite I in Unseen; discriminate|].
        exists [], m, ms. split; [reflexivity|]. split; [exact C0|].
        intros m' q' [].
      * destruct (Hadd q Hq) as [Nq [ms1 [m0 [ms2 [-> [Cq First]]]]]].
        split; [intros I; apply Nq; right; exact I|].
        exists (m :: ms1), m0, ms2.
        split; [reflexivity|]. split; [exact Cq|].
        intros m' q' [<-|Hm'] Cq'; [|exact (First m' q' Hm' Cq')].
        intros Eid. apply Nq. left.
        rewrite <- Eid. exact (candidate_id _ _ _ C0 Cq').
Qed.

(** Every id with a passing candidate among the matches is accepted. *)
Lemma loop_records_all (ms : list Match) : forall st st' m q,
  for_each match_body ms st = Ok st' -> In m ms -> candidate m q ->
  In (question_id q) (snd st').
Proof.
  induction ms as [|m0 ms IH]; intros st st' m q H Hm C; [destruct Hm|].
  simpl in H. destruct (match_body st m0) as [st1|e] eqn:B; cbn [bind] in H;
    [|discriminate].
  destruct Hm as [<-|Hm]; [|exact (IH _ _ _ _ H Hm C)].
  apply (seen_stays ms _ st1 st'); [|exact H].
  exact (match_body_records _ _ _ _ B C).
Qed.

(** Every accepted id belongs to an accepted candidate. *)
Lemma seen_are_candidates (ms : list Match) (st st' : loop_state) :
  (forall x, In x (snd st) -> In x (map question_id (fst st))) ->
  for_each match_body ms st = Ok st' ->
  forall x, In x (snd st') -> In x (map question_id (fst st')).
Proof.
  apply (for_each_invariant match_body
           (fun s => forall x, In x (snd s) -> In x (map question_id (fst s)))).
  intros s m s' _ Hs B.
  destruct (match_body_cases _ _ _ B) as [->|[q [-> _]]]; [exact Hs|].
  cbn [fst snd]. intros x [<-|Hx]; rewrite map_app; apply in_or_app;
    [right; left; reflexivity | left; apply Hs; exact Hx].
Qed.

(** X8: the selection rule.  Each returned candidate is built from a match
    before which, in the order of the patterns and then of the text, no
    match has a passing candidate with the same id; and every id that has
    a passing candidate among the matches is in the result. *)
Theorem first_passing_match_selected (text : pystr)
    (questions : list QuestionMatch) :
  _extract_with_confidence text = Ok questions ->
  (forall q, In q questions ->
     exists ms1 m ms2,
       all_matches text = ms1 ++ m :: ms2 /\ candidate m q
       /\ forall m' q', In m' ms1 -> candidate m' q' ->
                        question_id q' <> question_id q)
  /\ (forall m q, In m (all_matches text) -> candidate m q ->
        exists q', In q' questions /\ question_id q' = question_id q).
Proof.
  intros H. apply extract_unfold in H. destruct H as [st [H ->]].
  rewrite loops_flat in H. split.
  - intros q Hq.
    apply (Permutation_in _ (sorted_perm _ question_id (fst st))) in Hq.
    destruct (loop_selects_first _ _ _ H) as [added [E Hadd]].
    cbn [fst app] in E. rewrite E in Hq.
    destruct (Hadd q Hq) as [_ R]. exact R.
  - intros m q Hm C.
    pose proof (loop_records_all _ _ _ _ _ H Hm C) as I.
    assert (I0 : forall x, In x (snd (([], []) : loop_state)) ->
                   In x (map question_id (fst (([], []) : loop_state))))
      by (intros x []).
    apply (seen_are_candidates _ _ _ I0 H) in I.
    apply in_map_iff in I. destruct I as [q' [E Hq']].
    exists q'. split; [|exact E].
    apply (Permutation_in _ (Permutation_sym (sorted_perm _ question_id (fst st)))).
    exact Hq'.
Qed.

Lemma first_passing_match_selected_witness :
  let text := str "Q.3 What is X?" ++ newline :: str "3. Different text" in
  let questions := [ {| question_id := 3; question_text := str "What is X?";
                        confidence := 1.0%float |} ] in
  (forall q, In q questions ->
     exists ms1 m ms2,
       all_matches text = ms1 ++ m :: ms2 /\ candidate m q
       /\ forall m' q', In m' ms1 -> candidate m' q' ->
                        question_id q' <> question_id q)
  /\ (forall m q, In m (all_matches text) -> candidate m q ->
        exists q', In q' questions /\ question_id q' = question_id q).
Proof.
  exact (first_passing_match_selected
           (str "Q.3 What is X?" ++ newline :: str "3. Different text")
           [ {| question_id := 3; question_text := str "What is X?";
                confidence := 1.0%float |} ]
           eq_refl).
Defined.

(* ================================================================== *)
(** * [_extract_text_blocks] *)

(** [flags & 2**0] is non-zero exactly for the odd flags. *)
Lemma flag_bit0 (flags : Z) : negb (Z.land flags (2 ^ 0) =? 0)%Z = Z.odd flags.
Proof.
  change (2 ^ 0)%Z with (Z.ones 1). rewrite Z.land_ones by lia.
  change (2 ^ 1)%Z with 2%Z. rewrite Zmod_odd.
  destruct (Z.odd flags); reflexivity.
Qed.

Lemma span_body_pieces (text_blocks : list pystr) (span : Span) :
  span_body text_blocks span = text_blocks ++ span_pieces span.
Proof.
  unfold span_body, span_pieces. rewrite flag_bit0.
  destruct (Z.odd (get_flags span)); [rewrite <- app_assoc|]; reflexivity.
Qed.

Lemma line_body_pieces (line : Line) : forall text_blocks,
  line_body text_blocks line
  = text_blocks ++ flat_map span_pieces (line_spans line).
Proof.
  unfold line_body. induction (line_spans line) as [|span spans IH];
    intros text_blocks; simpl; [symmetry; apply app_nil_r|].
  rewrite IH, span_body_pieces, <- app_assoc. reflexivity.
Qed.

Lemma block_body_pieces (block : Block) (text_blocks : list pystr) :
  block_body text_blocks block
  = text_blocks ++ flat_map span_pieces (block_spans block).
Proof.
  unfold block_body, block_spans. destruct (block_lines block) as [lines|];
    [|symmetry; apply app_nil_r].
  revert text_blocks. induction lines as [|line lines IH]; intros text_blocks;
    simpl; [symmetry; apply app_nil_r|].
  rewrite IH, line_body_pieces, flat_map_app, <- app_assoc. reflexivity.
Qed.

Lemma page_body_pieces (page : Page) : forall text_blocks,
  page_body text_blocks page
  = text_blocks ++ flat_map span_pieces (flat_map block_spans page).
Proof.
  unfold page_body. induction page as [|block page IH]; intros text_blocks;
    simpl; [symmetry; apply app_nil_r|].
  rewrite IH, block_body_pieces, flat_map_app, <- app_assoc. reflexivity.
Qed.

Lemma document_pieces (doc : PdfDocument) : forall text_blocks,
  fold_left page_body doc text_blocks
  = text_blocks ++ flat_map span_pieces (all_spans doc).
Proof.
  unfold all_spans. induction doc as [|page doc IH]; intros text_blocks;
    simpl; [symmetry; apply app_nil_r|].
  rewrite IH, page_body_pieces, flat_map_app, <- app_assoc. reflexivity.
Qed.

Lemma text_blocks_pieces_eq (doc : PdfDocument) :
  _extract_text_blocks doc
  = join (str " ") (flat_map span_pieces (all_spans doc)).
Proof.
  unfold _extract_text_blocks. cbv zeta. rewrite document_pieces. reflexivity.
Qed.

Lemma span_pieces_same (l l' : list Span) :
  map span_text l = map span_text l' ->
  map (fun span => Z.odd (get_flags span)) l
  = map (fun span => Z.odd (get_flags span)) l' ->
  flat_map span_pieces l = flat_map span_pieces l'.
Proof.
  revert l'. induction l as [|x l IH]; intros [|y l'] Ht Hf;
    try discriminate Ht; [reflexivity|].
  simpl in Ht, Hf. injection Ht as Et Ht. injection Hf as Ef Hf.
  simpl. rewrite (IH l' Ht Hf). unfold span_pieces. rewrite Et, Ef. reflexivity.
Qed.

(** X9: the extracted text depends on the document only through the
    texts of its spans, in reading order, and bit 0 of their flags.  The
    grouping of the spans into lines, blocks and pages, the blocks without
    lines and the other bits of the flags leave no trace in it. *)
Theorem text_blocks_of_spans (doc doc' : PdfDocument) :
  map span_text (all_spans doc) = map span_text (all_spans doc') ->
  map (fun span => Z.odd (get_flags span)) (all_spans doc)
  = map (fun span => Z.odd (get_flags span)) (all_spans doc') ->
  _extract_text_blocks doc = _extract_text_blocks doc'.
Proof.
  intros Ht Hf. rewrite !text_blocks_pieces_eq.
  rewrite (span_pieces_same _ _ Ht Hf). reflexivity.
Qed.

Lemma text_blocks_of_spans_witness :
  _extract_text_blocks
    [ [ {| block_lines :=
             Some [ {| line_spans :=
                         [ {| span_text := str "Q1."; span_flags := Some 1%Z |};
                           {| span_text := str "What?"; span_flags := None |} ] |} ]
        |} ] ]
  = _extract_text_blocks
      [ [ {| block_lines :=
               Some [ {| line_spans :=
                           [ {| span_text := str "Q1."; span_flags := Some 7%Z |} ]
                      |} ] |};
          {| block_lines := None |} ];
        [ {| block_lines :=
               Some [ {| line_spans := [] |};
                      {| line_spans :=
                           [ {| span_text := str "What?"; span_flags := Some 4%Z |} ]
                      |} ] |} ] ].
Proof. apply text_blocks_of_spans; reflexivity. Defined.

(** ** Documents without text *)

Lemma join_In (sep : pystr) (l : list pystr) c :
  In c (join sep l) -> In c sep \/ exists x, In x l /\ In c x.
Proof.
  induction l as [|x l IH]; cbn [join]; [contradiction|].
  destruct l as [|y l].
  - intros H. right. exists x. split; [left; reflexivity | exact H].
  - intros H. apply in_app_or in H. destruct H as [H|H];
      [right; exists x; split; [left; reflexivity | exact H]|].
    apply in_app_or in H. destruct H as [H|H]; [left; exact H|].
    destruct (IH H) as [I|[z [Hz Hc]]]; [left; exact I|].
    right. exists z. split; [right; exact Hz | exact Hc].
Qed.

Lemma squeeze_blank (s : pystr) :
  (forall c, In c s -> is_space c = true) ->
  squeeze true s = [] /\ (squeeze false s = [] \/ squeeze false s = [space]).
Proof.
  induction s as [|c t IH]; intros H; cbn [squeeze]; [auto|].
  rewrite (H c (or_introl eq_refl)).
  destruct IH as [E _]; [intros d Hd; apply H; right; exact Hd|].
  rewrite E. auto.
Qed.

Lemma noise_removal_In (ps : list regex) c : forall text,
  In c (fold_left (fun text pattern => sub re_IGNORECASE pattern [] text) ps text) ->
  In c text.
Proof.
  induction ps as [|p ps IH]; intros text H; simpl in H; [exact H|].
  apply IH in H. apply sub_In in H. destruct H as [[]|H]. exact H.
Qed.

(** A text made of whitespace is cleaned to the empty text. *)
Lemma clean_text_blank (text : pystr) :
  (forall c, In c text -> is_space c = true) -> _clean_text text = [].
Proof.
  intros H. unfold _clean_text. rewrite sub_spaces.
  destruct (squeeze_blank
              (fold_left (fun text pattern => sub re_IGNORECASE pattern [] text)
                         NOISE_PATTERNS text)) as [_ [E|E]].
  - intros c Hc. apply H. exact (noise_removal_In _ _ _ Hc).
  - rewrite E. reflexivity.
  - rewrite E. reflexivity.
Qed.

(** X10: a document whose spans hold nothing but whitespace, such as a
    document of image blocks only, gives the empty list of questions and
    no error. *)
Theorem blank_document_no_questions (doc : PdfDocument) :
  (forall span c, In span (all_spans doc) -> In c (span_text span) ->
                  is_space c = true) ->
  extract_questions_of_document doc = Ok [].
Proof.
  intros H. unfold extract_questions_of_document, extract_questions. cbv zeta.
  rewrite clean_text_blank; [reflexivity|].
  intros c Hc. rewrite text_blocks_pieces_eq in Hc.
  apply join_In in Hc. destruct Hc as [Hc|[x [Hx Hc]]].
  - destruct Hc as [<-|[]]. reflexivity.
  - apply in_flat_map in Hx. destruct Hx as [span [Hs Hx]].
    unfold span_pieces in Hx. destruct (Z.odd (get_flags span)).
    + destruct Hx as [<-|[<-|[]]]; [exact (H span c Hs Hc)|].
      destruct Hc as [<-|[]]. reflexivity.
    + destruct Hx as [<-|[]]. exact (H span c Hs Hc).
Qed.

Lemma blank_document_no_questions_witness :
  extract_questions_of_document
    [ [ {| block_lines := None |};
        {| block_lines :=
             Some [ {| line_spans :=
                         [ {| span_text := str "  "; span_flags := Some 1%Z |};
                           {| span_text := []; span_flags := None |} ] |} ] |} ];
      [] ]
  = Ok [].
Proof.
  apply blank_document_no_questions.
  intros span c Hs Hc. cbn in Hs.
  destruct Hs as [<-|[<-|[]]]; cbn in Hc;
    repeat (destruct Hc as [<-|Hc]; [reflexivity|]); destruct Hc.
Defined.

(* ================================================================== *)
(** * [APIResponse.save] *)

Module ApiResponseFacts.
Import ApiResponseModel.

Lemma fold_max_spec (l : list Z) : forall a,
  (a <= fold_left Z.max l a)%Z
  /\ (forall x, In x l -> (x <= fold_left Z.max l a)%Z)
  /\ (fold_left Z.max l a = a \/ In (fold_left Z.max l a) l).
Proof.
  induction l as [|y l IH]; intros a; simpl.
  - split; [lia|]. split; [intros x []| left; reflexivity].
  - destruct (IH (Z.max a y)) as [G [All I]]. split; [lia|]. split.
    + intros x [<-|Hx]; [lia | exact (All x Hx)].
    + destruct I as [E|I]; [|right; right; exact I].
      destruct (Z.max_spec a y) as [[_ M]|[_ M]]; rewrite M in *;
        [right; left; symmetry; exact E | left; exact E].
Qed.

Lemma NoDup_snoc (l : list Z) (x : Z) : NoDup l -> ~ In x l -> NoDup (l ++ [x]).
Proof.
  intros N I. apply (Permutation_NoDup (Permutation_cons_append l x)).
  constructor; assumption.
Qed.

(** The largest stored id is a stored id and bounds them all; there is
    none exactly when nothing is stored. *)
Lemma aggregate_max_spec (qs : list APIResponse) :
  match aggregate_max qs with
  | Some m => In m (map question_id qs)
              /\ forall x, In x (map question_id qs) -> (x <= m)%Z
  | None => qs = []
  end.
Proof.
  destruct qs as [|r qs]; [reflexivity|]. cbn [aggregate_max map].
  destruct (fold_max_spec (map question_id qs) (question_id r)) as [G [All I]].
  split.
  - destruct I as [E|I]; [left; symmetry; exact E | right; exact I].
  - intros x [<-|Hx]; [exact G | exact (All x Hx)].
Qed.

Lemma or_0_Some (m : Z) : or_0 (Some m) = m.
Proof. unfold or_0. destruct (m =? 0)%Z eqn:E; [apply Z.eqb_eq in E; lia | reflexivity]. Qed.

(** The id a new instance gets is above every id stored for its document. *)
Lemma next_id_above (d : Z) (rows : list APIResponse) x :
  In x (ids_of d rows) ->
  (x < or_0 (aggregate_max (filter_document d rows)) + 1)%Z.
Proof.
  unfold ids_of. intros H.
  pose proof (aggregate_max_spec (filter_document d rows)) as S.
  destruct (aggregate_max (filter_document d rows)) as [m|].
  - rewrite or_0_Some. destruct S as [_ All]. specialize (All x H). lia.
  - rewrite S in H. destruct H.
Qed.

Lemma ids_of_app (d : Z) (rows : list APIResponse) (r : APIResponse) :
  ids_of d (rows ++ [r])
  = ids_of d rows ++ (if (document r =? d)%Z then [question_id r] else []).
Proof.
  unfold ids_of, filter_document. rewrite filter_app, map_app. cbn [filter].
  destruct (document r =? d)%Z; reflexivity.
Qed.

Lemma ids_of_In (d : Z) (rows : list APIResponse) (r : APIResponse) :
  In r rows -> document r = d -> In (question_id r) (ids_of d rows).
Proof.
  intros H E. unfold ids_of, filter_document. apply in_map.
  apply filter_In. split; [exact H | apply Z.eqb_eq; exact E].
Qed.

(** A new instance is inserted, under the next id of its document. *)
Lemma save_new (now new_pk : Z) (rows : list APIResponse) (self : APIResponse) :
  pk self = None ->
  let self' :=
    stamped (with_question_id self
               (or_0 (aggregate_max (filter_document (document self) rows)) + 1)%Z)
            (Some new_pk) true now in
  save now new_pk rows self = Done (rows ++ [self'], self').
Proof.
  intros Hpk. cbv zeta. unfold save. rewrite Hpk. cbn [not_pk].
  unfold model_save. cbn [pk with_question_id]. rewrite Hpk.
  set (n := (or_0 (aggregate_max (filter_document (document self) rows)) + 1)%Z).
  assert (U : unique_together_ok rows
                (stamped (with_question_id self n) (Some new_pk) true now) = true).
  { unfold unique_together_ok. apply forallb_forall. intros x Hx.
    cbn [stamped with_question_id pk document question_id].
    destruct (document x =? document self)%Z eqn:D;
      [|rewrite orb_true_r; reflexivity].
    apply Z.eqb_eq in D.
    pose proof (next_id_above _ _ _ (ids_of_In _ _ _ Hx D)) as L. fold n in L.
    assert (Q : (question_id x =? n)%Z = false) by (apply Z.eqb_neq; lia).
    rewrite Q. apply orb_true_r. }
  rewrite U. reflexivity.
Qed.



(** The ids of a document that are numbered 1, ..., k. *)
Lemma numbered_max (d : Z) (rows : list APIResponse) (k : Z) :
  (0 <= k)%Z -> numbered d rows k ->
  or_0 (aggregate_max (filter_document d rows)) = k.
Proof.
  intros Hk N. pose proof (aggregate_max_spec (filter_document d rows)) as S.
  destruct (aggregate_max (filter_document d rows)) as [m|].
  - rewrite or_0_Some. destruct S as [I All]. fold (ids_of d rows) in I, All.
    apply N in I. assert (k <= m)%Z; [|lia].
    apply All. apply N. lia.
  - unfold or_0. destruct (Z.eq_dec k 0) as [->|Hn]; [reflexivity|].
    assert (I : In k (ids_of d rows)) by (apply N; lia).
    unfold ids_of in I. rewrite S in I. destruct I.
Qed.

(** X12: the ids of a document are handed out in sequence: when the ids
    stored for a document are 1, ..., k, a new response of that document
    is stored under k + 1, whatever id the caller gave it, so the stored
    ids are then 1, ..., k + 1; the ids of the other documents are left
    as they are. *)
Theorem save_new_numbers_in_sequence (now new_pk : Z) (rows : list APIResponse)
    (self : APIResponse) (k : Z) :
  (0 <= k)%Z -> numbered (document self) rows k -> pk self = None ->
  exists self',
    save now new_pk rows self = Done (rows ++ [self'], self')
    /\ question_id self' = (k + 1)%Z
    /\ numbered (document self) (rows ++ [self']) (k + 1)
    /\ (forall d, d <> document self -> ids_of d (rows ++ [self']) = ids_of d rows).
Proof.
  intros Hk N Hpk. eexists. split; [apply save_new; exact Hpk|].
  cbn [stamped with_question_id question_id].
  rewrite (numbered_max _ _ _ Hk N). split; [reflexivity|]. split.
  - intros x. rewrite ids_of_app.
    cbn [stamped with_question_id document question_id].
    rewrite Z.eqb_refl, in_app_iff. rewrite (N x). cbn [In]. lia.
  - intros d Hd. rewrite ids_of_app.
    cbn [stamped with_question_id document].
    assert (E : (document self =? d)%Z = false)
      by (apply Z.eqb_neq; intros E; apply Hd; symmetry; exact E).
    rewrite E. apply app_nil_r.
Qed.

Lemma save_new_numbers_in_sequence_witness :
  let rows := [stored_response 1 7 2; stored_response 2 8 5; stored_response 3 7 1] in
  exists self',
    save 100 4 rows (new_response 7 40) = Done (rows ++ [self'], self')
    /\ question_id self' = (2 + 1)%Z
    /\ numbered (document (new_response 7 40)) (rows ++ [self']) (2 + 1)
    /\ (forall d, d <> document (new_response 7 40) ->
          ids_of d (rows ++ [self']) = ids_of d rows).
Proof.
  apply (save_new_numbers_in_sequence 100 4
           [stored_response 1 7 2; stored_response 2 8 5; stored_response 3 7 1]
           (new_response 7 40) 2); [lia | | reflexivity].
  intros x. unfold ids_of, filter_document.
  cbn [filter document stored_response stamped new_response].
  change (7 =? 7)%Z with true. change (8 =? 7)%Z with false.
  cbn [map question_id stored_response stamped new_response In]. lia.
Defined.

End ApiResponseFacts.

(* ================================================================== *)
(** * [Document.delete] and [delete_document_with_files] *)

Module DocumentFacts.
Import DocumentModel.

Lemma path_eqb_eq (p q : pystr) : path_eqb p q = true <-> p = q.
Proof.
  revert q. induction p as [|c p IH]; intros [|d q]; simpl;
    try (split; [discriminate | discriminate]); [tauto|].
  rewrite andb_true_iff, Ascii.eqb_eq, IH. split.
  - intros [-> ->]. reflexivity.
  - intros E. injection E as -> ->. auto.
Qed.

(** One step of the clean-up removes its path when a removable file is
    there, and changes nothing else. *)
Lemma remove_body_at (fs : filesystem) (file_path : option pystr) (p : pystr) :
  remove_body fs file_path p =
  match fs p with
  | Some File => if targets file_path p then None else Some File
  | other => other
  end.
Proof.
  unfold remove_body, targets. destruct file_path as [p'|];
    [|destruct (fs p) as [[|]|]; reflexivity].
  destruct (path_eqb p p') eqn:E.
  - apply path_eqb_eq in E. subst p'. unfold os_path_exists, os_remove.
    destruct (truthy (Some p)); cbn [andb];
      [|destruct (fs p) as [[|]|]; reflexivity].
    destruct (fs p) as [[|]|] eqn:F; [|rewrite F; reflexivity | rewrite F; reflexivity].
    assert (R : path_eqb p p = true) by (apply path_eqb_eq; reflexivity).
    rewrite R. reflexivity.
  - cbn [andb]. unfold os_path_exists, os_remove.
    destruct (truthy (Some p') && match fs p' with Some _ => true | None => false end);
      [|destruct (fs p) as [[|]|]; reflexivity].
    destruct (fs p') as [[|]|]; [rewrite E|idtac|idtac];
      destruct (fs p) as [[|]|]; reflexivity.
Qed.

Lemma clean_up_at (l : list (option pystr)) (p : pystr) : forall fs,
  fold_left remove_body l fs p =
  match fs p with
  | Some File => if existsb (fun fp => targets fp p) l then None else Some File
  | other => other
  end.
Proof.
  induction l as [|fp l IH]; intros fs; cbn [fold_left existsb];
    [destruct (fs p) as [[|]|]; reflexivity|].
  rewrite IH, remove_body_at.
  destruct (fs p) as [[|]|]; [|reflexivity|reflexivity].
  destruct (targets fp p); reflexivity.
Qed.

Lemma targets_path_if (f : FieldFile) (p : pystr) :
  targets (path_if f) p
  = has_file f && path_eqb p (f_path f) && truthy (Some p).
Proof.
  unfold targets, path_if. destruct (has_file f); [|reflexivity]. cbn [andb].
  destruct (path_eqb p (f_path f)) eqn:E; [|reflexivity].
  apply path_eqb_eq in E. subst p. reflexivity.
Qed.

Lemma clean_up_own (self : Document) (fs : filesystem) (p : pystr) :
  fold_left remove_body
    [path_if (file self); path_if (answers self); path_if (preview self)] fs p
  = cleaned self fs p.
Proof.
  rewrite clean_up_at. unfold cleaned, own_path. cbn [existsb].
  rewrite !targets_path_if.
  destruct (fs p) as [[|]|]; [|reflexivity|reflexivity].
  destruct (truthy (Some p)); rewrite ?andb_true_r, ?andb_false_r;
    [rewrite orb_false_r|]; reflexivity.
Qed.

(** X13: deleting a stored document removes its row and the responses
    that refer to it and keeps the other rows; on the file system, each of
    its three paths that holds a removable file is gone afterwards, a path
    that cannot be removed is left without an error, and every other path
    is as before. *)
Theorem delete_cleans_own_files (db : database) (fs : filesystem)
    (self : Document) (k : Z) :
  pk self = Some k ->
  exists db' fs',
    delete db fs self = Done (db', fs')
    /\ (forall p, fs' p = cleaned self fs p)
    /\ (forall d, In d (documents db')
                  <-> In d (documents db) /\ pk d <> Some k)
    /\ (forall r, In r (responses db')
                  <-> In r (responses db) /\ ApiResponseModel.document r <> k).
Proof.
  intros Hpk. unfold delete, model_delete. rewrite Hpk.
  eexists. eexists. split; [reflexivity|]. split; [apply clean_up_own|].
  cbn [documents responses]. split.
  - intros d. rewrite filter_In, negb_true_iff. split; intros [I N]; split;
      try exact I.
    + intros E. rewrite E in N. cbn in N. rewrite Z.eqb_refl in N. discriminate.
    + destruct (pk d) as [j|]; [|reflexivity]. cbn.
      apply Z.eqb_neq. intros ->. apply N. reflexivity.
  - intros r. rewrite filter_In, negb_true_iff, Z.eqb_neq. tauto.
Qed.

Lemma delete_cleans_own_files_witness :
  exists db' fs',
    delete example_database example_filesystem example_document = Done (db', fs')
    /\ (forall p, fs' p = cleaned example_document example_filesystem p)
    /\ (forall d, In d (documents db')
                  <-> In d (documents example_database) /\ pk d <> Some 7%Z)
    /\ (forall r, In r (responses db')
                  <-> In r (responses example_database)
                      /\ ApiResponseModel.document r <> 7%Z).
Proof.
  exact (delete_cleans_own_files example_database example_filesystem
           example_document 7 eq_refl).
Defined.

(** X14: [delete_document_with_files] on a stored document does what
    [Document.delete] does: the responses it deletes first are those the
    deletion of the document removes anyway. *)
Theorem service_delete_is_model_delete (db : database) (fs : filesystem)
    (document : Document) (k : Z) :
  pk document = Some k ->
  DocumentService.delete_document_with_files db fs document
  = delete db fs document.
Proof.
  intros Hpk. unfold DocumentService.delete_document_with_files. rewrite Hpk.
  unfold delete, model_delete. rewrite Hpk.
  unfold DocumentService.delete_responses. cbn [documents responses].
  f_equal. f_equal. f_equal.
  induction (responses db) as [|r l IH]; cbn [filter]; [reflexivity|].
  destruct (negb (ApiResponseModel.document r =? k)%Z) eqn:E; cbn [filter];
    [rewrite E, IH; reflexivity | exact IH].
Qed.

Lemma service_delete_is_model_delete_witness :
  DocumentService.delete_document_with_files example_database example_filesystem
    example_document
  = delete example_database example_filesystem example_document.
Proof.
  exact (service_delete_is_model_delete example_database example_filesystem
           example_document 7 eq_refl).
Defined.

End DocumentFacts.
